(** * Chatterino update orchestrator: [src/singletons/Updates.cpp]

    A shallow embedding of [chatterino::Updates] (the self-update state
    machine) together with the collaborators it talks to, followed by the
    properties of the update flow.

    Strings ([QString], [QByteArray]) are [string]; integers ([qint64], the
    timeout in milliseconds) are [Z]; the members of the singleton are a
    record; everything the class does to the outside world (dialogs, network
    requests, files, processes, posted notifications) is an [Event] appended
    to a trace by a small state-and-trace monad.  [qCDebug]/[qCWarning]
    logging is left out. *)

From Stdlib Require Import String Ascii List ZArith NArith Bool Lia.
From Stdlib Require Import OrderedTypeEx FMapList FMapFacts.
Import ListNotations.

Local Open Scope string_scope.

Set Warnings "-register-all".

(* ===================================================================== *)
(** ** Semantic versions ([<semver/semver.hpp>]) *)
(* ===================================================================== *)

Module semver.

(** Modelled from the spec: [semver::version], its parser
    [from_string_noexcept] and its [operator<] come from the bundled semver
    library, which is not part of the sources at hand.  The spec (section
    4.1) describes them as: "parses both inputs as semantic versions
    (major.minor.patch, optional pre-release/build metadata)" and
    "comparison follows standard semantic-version precedence (major, then
    minor, then patch, then pre-release tag ordering)".  The model is the
    grammar and the precedence of Semantic Versioning 2.0.0. *)

Inductive identifier : Type :=
  | Numeric (n : N)
  | Alphanumeric (s : string).

Record version : Type := mkVersion {
  major : N;
  minor : N;
  patch : N;
  prerelease : list identifier;
  build : list string
}.

(** *** Lexical helpers *)

Definition is_digit (c : ascii) : bool :=
  let n := N_of_ascii c in ((48 <=? n) && (n <=? 57))%N.

Definition is_letter (c : ascii) : bool :=
  let n := N_of_ascii c in
  (((65 <=? n) && (n <=? 90)) || ((97 <=? n) && (n <=? 122)))%N.

Definition is_identifier_char (c : ascii) : bool :=
  is_digit c || is_letter c || Ascii.eqb c "-".

Fixpoint all_chars (p : ascii -> bool) (s : string) : bool :=
  match s with
  | EmptyString => true
  | String c rest => p c && all_chars p rest
  end.

(** [cut sep s] splits [s] at the first [sep]: the text before it and, when
    there is a separator, the text after it. *)
Fixpoint cut (sep : ascii) (s : string) : string * option string :=
  match s with
  | EmptyString => (EmptyString, None)
  | String c rest =>
      if Ascii.eqb c sep then (EmptyString, Some rest)
      else let (before, after) := cut sep rest in (String c before, after)
  end.

(** [split sep s] is the list of the fields of [s] between separators; it
    has one more element than [s] has separators. *)
Fixpoint split (sep : ascii) (s : string) : list string :=
  match s with
  | EmptyString => [EmptyString]
  | String c rest =>
      if Ascii.eqb c sep then EmptyString :: split sep rest
      else match split sep rest with
           | [] => [String c EmptyString]
           | field :: fields => String c field :: fields
           end
  end.

Fixpoint digits_value (acc : N) (s : string) : N :=
  match s with
  | EmptyString => acc
  | String c rest => digits_value (acc * 10 + (N_of_ascii c - 48))%N rest
  end.

(** A numeric field: a non-empty run of digits without a leading zero. *)
Definition numeric (s : string) : option N :=
  match s with
  | EmptyString => None
  | String c rest =>
      if all_chars is_digit s && (negb (Ascii.eqb c "0") || (rest =? ""))
      then Some (digits_value 0 s)
      else None
  end.

Definition parse_identifier (s : string) : option identifier :=
  if s =? "" then None
  else if all_chars is_digit s then option_map Numeric (numeric s)
  else if all_chars is_identifier_char s then Some (Alphanumeric s)
  else None.

Definition parse_build_identifier (s : string) : option string :=
  if s =? "" then None
  else if all_chars is_identifier_char s then Some s
  else None.

Fixpoint traverse {A B : Type} (f : A -> option B) (l : list A)
  : option (list B) :=
  match l with
  | [] => Some []
  | x :: xs =>
      match f x, traverse f xs with
      | Some y, Some ys => Some (y :: ys)
      | _, _ => None
      end
  end.

Definition parse_dotted {B : Type} (f : string -> option B)
    (field : option string) : option (list B) :=
  match field with
  | None => Some []
  | Some s => traverse f (split "." s)
  end.

(** *** [version::from_string_noexcept]

    The C++ member fills the object and returns whether the text was a
    version; it never throws.  Here: [Some v] on success, [None] on
    failure. *)
Definition from_string_noexcept (s : string) : option version :=
  let (rest, build_part) := cut "+" s in
  let (core, pre_part) := cut "-" rest in
  match split "." core with
  | [ma; mi; pa] =>
      match numeric ma, numeric mi, numeric pa with
      | Some x, Some y, Some z =>
          match parse_dotted parse_identifier pre_part,
                parse_dotted parse_build_identifier build_part with
          | Some pre, Some bld => Some (mkVersion x y z pre bld)
          | _, _ => None
          end
      | _, _, _ => None
      end
  | _ => None
  end.

(** *** Precedence, executable *)

Definition compare_identifier (a b : identifier) : comparison :=
  match a, b with
  | Numeric n, Numeric m => (n ?= m)%N
  | Numeric _, Alphanumeric _ => Lt
  | Alphanumeric _, Numeric _ => Gt
  | Alphanumeric s, Alphanumeric t => String.compare s t
  end.

Fixpoint compare_identifiers (p q : list identifier) : comparison :=
  match p, q with
  | [], [] => Eq
  | [], _ :: _ => Lt
  | _ :: _, [] => Gt
  | a :: p', b :: q' =>
      match compare_identifier a b with
      | Eq => compare_identifiers p' q'
      | c => c
      end
  end.

(** A version with a pre-release tag comes before the same version without
    one. *)
Definition compare_prerelease (p q : list identifier) : comparison :=
  match p, q with
  | [], [] => Eq
  | [], _ :: _ => Gt
  | _ :: _, [] => Lt
  | _ :: _, _ :: _ => compare_identifiers p q
  end.

Definition then_compare (c : comparison) (next : comparison) : comparison :=
  match c with
  | Eq => next
  | _ => c
  end.

Definition compare (v w : version) : comparison :=
  then_compare (major v ?= major w)%N
    (then_compare (minor v ?= minor w)%N
       (then_compare (patch v ?= patch w)%N
          (compare_prerelease (prerelease v) (prerelease w)))).

(** [operator<] *)
Definition ltb (v w : version) : bool :=
  match compare v w with
  | Lt => true
  | _ => false
  end.

(** *** Precedence, as the standard words it *)

Inductive identifier_lt : identifier -> identifier -> Prop :=
  | lt_numeric n m : (n < m)%N -> identifier_lt (Numeric n) (Numeric m)
  | lt_numeric_alpha n s : identifier_lt (Numeric n) (Alphanumeric s)
  | lt_alpha s t :
      String.compare s t = Lt -> identifier_lt (Alphanumeric s) (Alphanumeric t).

Inductive identifiers_lt : list identifier -> list identifier -> Prop :=
  | lt_shorter b q : identifiers_lt [] (b :: q)
  | lt_here a b p q : identifier_lt a b -> identifiers_lt (a :: p) (b :: q)
  | lt_later a p q : identifiers_lt p q -> identifiers_lt (a :: p) (a :: q).

Inductive prerelease_lt : list identifier -> list identifier -> Prop :=
  | lt_tagged a p : prerelease_lt (a :: p) []
  | lt_tags a p b q :
      identifiers_lt (a :: p) (b :: q) -> prerelease_lt (a :: p) (b :: q).

Inductive precedes (v w : version) : Prop :=
  | precedes_major : (major v < major w)%N -> precedes v w
  | precedes_minor :
      major v = major w -> (minor v < minor w)%N -> precedes v w
  | precedes_patch :
      major v = major w -> minor v = minor w -> (patch v < patch w)%N ->
      precedes v w
  | precedes_prerelease :
      major v = major w -> minor v = minor w -> patch v = patch w ->
      prerelease_lt (prerelease v) (prerelease w) -> precedes v w.

End semver.

(* ===================================================================== *)
(** ** Qt values the class handles *)
(* ===================================================================== *)

(** [QJsonValue]: a JSON value, or [Undefined] for a member that is not
    there.  Numbers are never inspected by this code. *)
Inductive QJsonValue : Type :=
  | JNull
  | JBool (b : bool)
  | JDouble (d : Z)
  | JString (s : string)
  | JArray (items : list QJsonValue)
  | JObject (members : list (string * QJsonValue))
  | JUndefined.

Definition QJsonObject : Type := list (string * QJsonValue).

(** [QJsonObject::value(key)] *)
Fixpoint value (object : QJsonObject) (key : string) : QJsonValue :=
  match object with
  | [] => JUndefined
  | (k, v) :: rest => if k =? key then v else value rest key
  end.

(** [QJsonValue::toObject()]: the empty object for anything else. *)
Definition toObject (v : QJsonValue) : QJsonObject :=
  match v with
  | JObject members => members
  | _ => []
  end.

Definition isString (v : QJsonValue) : bool :=
  match v with
  | JString _ => true
  | _ => false
  end.

(** [QJsonValue::toString()]: the empty string for anything else. *)
Definition toString (v : QJsonValue) : string :=
  match v with
  | JString s => s
  | _ => ""
  end.

(* ===================================================================== *)
(** ** The state of [Updates] *)
(* ===================================================================== *)

(** Modelled from the spec: the enumeration [Updates::Status] is declared in
    Updates.hpp, which is not part of the sources at hand.  Section 3 lists
    its values; the first one, the state before any check, is [Idle]
    there. *)
Inductive Status : Type :=
  | Idle
  | Searching
  | UpdateAvailable
  | NoUpdateAvailable
  | SearchFailed
  | Downloading
  | DownloadFailed
  | WriteFileFailed.

Definition Status_eqb (a b : Status) : bool :=
  match a, b with
  | Idle, Idle
  | Searching, Searching
  | UpdateAvailable, UpdateAvailable
  | NoUpdateAvailable, NoUpdateAvailable
  | SearchFailed, SearchFailed
  | Downloading, Downloading
  | DownloadFailed, DownloadFailed
  | WriteFileFailed, WriteFileFailed => true
  | _, _ => false
  end.

(** The data members of the class. *)
Record Updates : Type := mkUpdates {
  currentVersion_ : string;
  onlineVersion_ : string;
  status_ : Status;
  isDowngrade_ : bool;
  updateExe_ : string;
  updatePortable_ : string;
  updateGuideLink_ : string
}.

Definition with_status (this : Updates) (s : Status) : Updates :=
  mkUpdates (currentVersion_ this) (onlineVersion_ this) s
    (isDowngrade_ this) (updateExe_ this) (updatePortable_ this)
    (updateGuideLink_ this).

Definition with_onlineVersion (this : Updates) (v : string) : Updates :=
  mkUpdates (currentVersion_ this) v (status_ this)
    (isDowngrade_ this) (updateExe_ this) (updatePortable_ this)
    (updateGuideLink_ this).

Definition with_isDowngrade (this : Updates) (b : bool) : Updates :=
  mkUpdates (currentVersion_ this) (onlineVersion_ this) (status_ this)
    b (updateExe_ this) (updatePortable_ this) (updateGuideLink_ this).

Definition with_updateExe (this : Updates) (u : string) : Updates :=
  mkUpdates (currentVersion_ this) (onlineVersion_ this) (status_ this)
    (isDowngrade_ this) u (updatePortable_ this) (updateGuideLink_ this).

Definition with_updatePortable (this : Updates) (u : string) : Updates :=
  mkUpdates (currentVersion_ this) (onlineVersion_ this) (status_ this)
    (isDowngrade_ this) (updateExe_ this) u (updateGuideLink_ this).

(** [Updates::Updates()]: the initialiser list sets the version of the build
    and the guide link.  The other members get their initial values in
    Updates.hpp, which is not at hand; following section 3 of the spec the
    strings start empty, the status at [Idle] and the downgrade flag at
    false. *)
Definition Updates_new (CHATTERINO_VERSION : string) : Updates :=
  mkUpdates CHATTERINO_VERSION "" Idle false "" "" "https://chatterino.com".

(* ===================================================================== *)
(** ** What the class reads from its surroundings *)
(* ===================================================================== *)

(** The [Q_OS_*] macro the file is compiled under. *)
Inductive Platform : Type :=
  | Windows
  | MacOS
  | Linux
  | OtherOS.

(** Everything the two entry points read that is not a member of the
    class: build and distribution facts, paths, and the answers of the file
    system and of the process launcher. *)
Record Env : Type := mkEnv {
  platform : Platform;
  isSupportedOS : bool;       (* Version::instance().isSupportedOS() *)
  isFlatpak : bool;           (* Version::instance().isFlatpak() *)
  isNightly : bool;           (* Modes::instance().isNightly *)
  isPortable : bool;          (* getPaths()->isPortable() *)
  miscDirectory : string;     (* getPaths()->miscDirectory *)
  applicationDirPath : string;
  combinePath : string -> string -> string;
  (* QFile::open(Truncate | WriteOnly) on this path succeeds *)
  open_succeeds : string -> bool;
  (* what QFile::write returns for these bytes once the file is open:
     the number of bytes written, or -1 *)
  write_result : string -> string -> Z;
  (* QProcess::startDetached could start the program *)
  launch_succeeds : string -> list string -> bool
}.

(* ===================================================================== *)
(** ** Effects *)
(* ===================================================================== *)

Inductive BoxMode : Type :=
  | Exec            (* box->exec(): modal *)
  | Show            (* box->show() *)
  | ShowRaise.      (* box->show(); box->raise() *)

Inductive Event : Type :=
  | AssertFailed                                   (* assert(false) *)
  | MessageBox (mode : BoxMode) (text : string)
  | OpenUrl (url : string)                         (* QDesktopServices *)
  | Execute (url : string) (timeout : option Z)    (* NetworkRequest::execute *)
  | FileOpen (path : string)
  | FileWrite (path : string) (data : string)
  | FileFlush (path : string)
  | FileClose (path : string)
  | StartDetached (program : string) (args : list string)
  | ApplicationExit (code : Z)                     (* QApplication::exit *)
  | StatusUpdated (status : Status)                (* statusUpdated.invoke *)
  | PostToThread (body : Event).                   (* postToThread([..]{..}) *)

Definition is_network (e : Event) : bool :=
  match e with
  | Execute _ _ => true
  | _ => false
  end.

Definition is_filesystem (e : Event) : bool :=
  match e with
  | FileOpen _ | FileWrite _ _ | FileFlush _ | FileClose _ => true
  | _ => false
  end.

Definition is_exit (e : Event) : bool :=
  match e with
  | ApplicationExit _ => true
  | _ => false
  end.

Definition is_launch (e : Event) : bool :=
  match e with
  | StartDetached _ _ => true
  | _ => false
  end.

(** A computation on the object: from the members before to a result, the
    members after and the events it caused, in order. *)
Definition M (A : Type) : Type := Updates -> A * Updates * list Event.

Definition ret {A : Type} (a : A) : M A := fun this => (a, this, []).

Definition bind {A B : Type} (m : M A) (k : A -> M B) : M B :=
  fun this =>
    let '(a, this1, t1) := m this in
    let '(b, this2, t2) := k a this1 in
    (b, this2, (t1 ++ t2)%list).

Declare Scope upd_scope.
Delimit Scope upd_scope with upd.
Notation "x <- m ;; k" := (bind m (fun x => k))
  (at level 61, m at next level, right associativity) : upd_scope.
Notation "m ;; k" := (bind m (fun _ => k))
  (at level 61, right associativity) : upd_scope.
Local Open Scope upd_scope.

Definition get : M Updates := fun this => (this, this, []).
Definition put (this' : Updates) : M unit := fun _ => (tt, this', []).
Definition emit (e : Event) : M unit := fun this => (tt, this, [e]).

Definition state_after {A : Type} (r : A * Updates * list Event) : Updates :=
  snd (fst r).
Definition trace_of {A : Type} (r : A * Updates * list Event) : list Event :=
  snd r.
Definition value_of {A : Type} (r : A * Updates * list Event) : A :=
  fst (fst r).

(** [assert(cond)]: a false condition is an assertion failure.  Whether the
    process is then aborted is a matter of the build ([NDEBUG]); the code
    after the assertion is written for the case where it is not. *)
Definition assert_ (cond : bool) : M unit :=
  if cond then ret tt else emit AssertFailed.

Definition messageBox (mode : BoxMode) (text : string) : M unit :=
  emit (MessageBox mode text).

Definition openUrl (url : string) : M unit := emit (OpenUrl url).

Definition postToThread (body : Event) : M unit := emit (PostToThread body).

Definition applicationExit (code : Z) : M unit := emit (ApplicationExit code).

(** [QProcess::startDetached(program, args)] *)
Definition startDetached (env : Env) (program : string) (args : list string)
  : M bool :=
  emit (StartDetached program args) ;; ret (launch_succeeds env program args).

(** [QFile file(path); file.open(Truncate | WriteOnly)]; the source drops
    the result, the file object keeps it. *)
Definition file_open (env : Env) (path : string) : M bool :=
  emit (FileOpen path) ;; ret (open_succeeds env path).

(** [file.write(data)]: -1 on a file that is not open, else what the file
    system answers. *)
Definition file_write (env : Env) (path : string) (opened : bool)
    (data : string) : M Z :=
  emit (FileWrite path data) ;;
  ret (if opened then write_result env path data else (-1)%Z).

Definition file_flush_close (path : string) : M unit :=
  emit (FileFlush path) ;; emit (FileClose path).

(* ===================================================================== *)
(** ** Network requests *)
(* ===================================================================== *)

(** [Outcome] of a success callback (common/Outcome.hpp). *)
Inductive Outcome : Type :=
  | Success
  | Failure.

(** Modelled from the spec: [NetworkRequest] and [NetworkResult]
    (common/NetworkRequest.hpp, common/NetworkResult.hpp) are not part of
    the sources at hand.  Section 6 gives the contract: "fetch(url, timeout)
    -> Result<bytes, NetworkError>, invoked asynchronously, completion
    delivered via callback", and section 5: "a timeout is treated
    identically to a network error".  A result carries the bytes received
    and their reading as a JSON object; a request carries the callbacks
    that were registered on it, if any. *)
Record NetworkResult : Type := mkResult {
  getData : string;
  parseJson : QJsonObject
}.

Record NetworkRequest : Type := mkRequest {
  req_url : string;
  req_timeout : option Z;
  req_onError : option (NetworkResult -> M unit);
  req_onSuccess : option (NetworkResult -> M Outcome)
}.

Definition NetworkRequest_ (url : string) : NetworkRequest :=
  mkRequest url None None None.

Definition timeout (ms : Z) (r : NetworkRequest) : NetworkRequest :=
  mkRequest (req_url r) (Some ms) (req_onError r) (req_onSuccess r).

Definition onError (cb : NetworkResult -> M unit) (r : NetworkRequest)
  : NetworkRequest :=
  mkRequest (req_url r) (req_timeout r) (Some cb) (req_onSuccess r).

Definition onSuccess (cb : NetworkResult -> M Outcome) (r : NetworkRequest)
  : NetworkRequest :=
  mkRequest (req_url r) (req_timeout r) (req_onError r) (Some cb).

(** [.execute()]: the request leaves; its callbacks run later. *)
Definition execute (r : NetworkRequest) : M NetworkRequest :=
  emit (Execute (req_url r) (req_timeout r)) ;; ret r.

Notation "r |> f" := (f r) (at level 59, left associativity, only parsing)
  : upd_scope.

(** How a request that was sent ends. *)
Inductive Completion : Type :=
  | Succeeded (result : NetworkResult)
  | Failed (result : NetworkResult)
  | TimedOut.

Definition no_result : NetworkResult := mkResult "" [].

(** The completion of a request runs the callback registered for it, when
    there is one; a timeout counts as an error. *)
Definition deliver (r : NetworkRequest) (c : Completion) : M (option Outcome) :=
  match c with
  | Succeeded result =>
      match req_onSuccess r with
      | Some cb => o <- cb result ;; ret (Some o)
      | None => ret None
      end
  | Failed result =>
      match req_onError r with
      | Some cb => cb result ;; ret None
      | None => ret None
      end
  | TimedOut =>
      match req_onError r with
      | Some cb => cb no_result ;; ret None
      | None => ret None
      end
  end.

(* ===================================================================== *)
(** ** The member functions of [Updates] *)
(* ===================================================================== *)

(** [Updates::isDowngradeOf] *)
Definition isDowngradeOf (online current : string) : bool :=
  match semver.from_string_noexcept online with
  | None => false
  | Some onlineVersion =>
      match semver.from_string_noexcept current with
      | None => false
      | Some currentVersion => semver.ltb onlineVersion currentVersion
      end
  end.

Definition getCurrentVersion (this : Updates) : string := currentVersion_ this.
Definition getOnlineVersion (this : Updates) : string := onlineVersion_ this.
Definition getStatus (this : Updates) : Status := status_ this.
Definition isDowngrade (this : Updates) : bool := isDowngrade_ this.

(** [Updates::shouldShowUpdateButton] *)
Definition shouldShowUpdateButton (this : Updates) : bool :=
  match getStatus this with
  | UpdateAvailable
  | SearchFailed
  | Downloading
  | DownloadFailed
  | WriteFileFailed => true
  | _ => false
  end.

(** [Updates::isError] *)
Definition isError (this : Updates) : bool :=
  match getStatus this with
  | SearchFailed
  | DownloadFailed
  | WriteFileFailed => true
  | _ => false
  end.

(** [Updates::setStatus_] *)
Definition setStatus_ (status : Status) : M unit :=
  this <- get ;;
  if negb (Status_eqb (status_ this) status) then
    put (with_status this status) ;;
    postToThread (StatusUpdated status)
  else ret tt.

Definition nl : string := String (ascii_of_nat 10) EmptyString.

Definition text_downloading : string :=
  "Chatterino is downloading the update in the background and will run the updater once it is finished.".

(** The success callback of the portable download (Windows). *)
Definition installPortable_onSuccess (env : Env) (result : NetworkResult)
  : M Outcome :=
  let object := getData result in
  let filename := combinePath env (miscDirectory env) "update.zip" in
  opened <- file_open env filename ;;
  written <- file_write env filename opened object ;;
  if (written =? -1)%Z then
    setStatus_ WriteFileFailed ;;
    ret Failure
  else
    file_flush_close filename ;;
    _ <- startDetached env
           (combinePath env (applicationDirPath env)
              "updater.1/ChatterinoUpdater.exe")
           [filename; "restart"] ;;
    applicationExit 0 ;;
    ret Success.

(** The error callback of the portable download. *)
Definition installPortable_onError (_ : NetworkResult) : M unit :=
  setStatus_ DownloadFailed ;;
  postToThread
    (MessageBox ShowRaise "Failed while trying to download the update.").

(** The success callback of the installer download (Windows). *)
Definition installExe_onSuccess (env : Env) (result : NetworkResult)
  : M Outcome :=
  let object := getData result in
  let filePath := combinePath env (miscDirectory env) "Update.exe" in
  opened <- file_open env filePath ;;
  written <- file_write env filePath opened object ;;
  if (written =? -1)%Z then
    setStatus_ WriteFileFailed ;;
    messageBox Exec
      ("Failed to save the update file. This could be due to window settings or antivirus software."
         ++ nl ++ nl ++ "Try manually downloading the update.") ;;
    this <- get ;;
    openUrl (updateExe_ this) ;;
    ret Failure
  else
    file_flush_close filePath ;;
    started <- startDetached env filePath [] ;;
    (if started : bool then
       applicationExit 0
     else
       messageBox Exec
         ("Failed to execute update binary. This could be due to window settings or antivirus software."
            ++ nl ++ nl ++ "Try manually downloading the update.") ;;
       this <- get ;;
       openUrl (updateExe_ this)) ;;
    ret Success.

(** The error callback of the installer download. *)
Definition installExe_onError (_ : NetworkResult) : M unit :=
  setStatus_ DownloadFailed ;;
  messageBox Exec
    ("Failed to download the update. " ++ nl ++ nl
       ++ "Try manually downloading the update.").

(** [Updates::installUpdates].  The result is the request that was sent, if
    one was. *)
Definition installUpdates (env : Env) : M (option NetworkRequest) :=
  this <- get ;;
  if negb (Status_eqb (status_ this) UpdateAvailable) then
    assert_ false ;;
    ret None
  else
    match platform env with
    | MacOS =>
        messageBox Exec
          "A link will open in your browser. Download and install to update." ;;
        openUrl (updateExe_ this) ;;
        ret None
    | Linux =>
        messageBox Exec
          "Automatic updates are currently not available on linux. Please redownload the app to update." ;;
        openUrl (updateGuideLink_ this) ;;
        ret None
    | Windows =>
        if isPortable env then
          messageBox Show text_downloading ;;
          req <- execute (NetworkRequest_ (updatePortable_ this)
                            |> timeout 600000
                            |> onError installPortable_onError
                            |> onSuccess (installPortable_onSuccess env)) ;;
          setStatus_ Downloading ;;
          ret (Some req)
        else
          messageBox Show text_downloading ;;
          req <- execute (NetworkRequest_ (updateExe_ this)
                            |> timeout 600000
                            |> onError installExe_onError
                            |> onSuccess (installExe_onSuccess env)) ;;
          setStatus_ Downloading ;;
          ret (Some req)
    | OtherOS => ret None
    end.

(** The success callback of the release query. *)
Definition checkForUpdates_onSuccess (env : Env) (result : NetworkResult)
  : M Outcome :=
  let object := parseJson result in
  let version_val := value object "tag_name" in
  if negb (isString version_val) then
    setStatus_ SearchFailed ;;
    ret Failure
  else
    match platform env with
    | Windows =>
        let updateExe_val :=
          value (toObject (value (toObject (value object "download"))
                             "installer")) "url" in
        if negb (isString updateExe_val) then
          setStatus_ SearchFailed ;;
          ret Failure
        else
          this <- get ;;
          put (with_updateExe this (toString updateExe_val)) ;;
          let portable_val :=
            value (toObject (value (toObject (value object "download"))
                               "portable")) "url" in
          if negb (isString portable_val) then
            setStatus_ SearchFailed ;;
            ret Failure
          else
            this <- get ;;
            put (with_updatePortable this (toString portable_val)) ;;
            this <- get ;;
            put (with_onlineVersion this (toString version_val)) ;;
            this <- get ;;
            if negb ("v." ++ currentVersion_ this =? onlineVersion_ this) then
              setStatus_ UpdateAvailable ;;
              this <- get ;;
              put (with_isDowngrade this
                     (isDowngradeOf (onlineVersion_ this)
                        (currentVersion_ this))) ;;
              ret Failure
            else
              setStatus_ NoUpdateAvailable ;;
              ret Failure
    | _ => ret Failure
    end.

(** [Updates::checkForUpdates].  The result is the request that was sent, if
    one was. *)
Definition checkForUpdates (env : Env) : M (option NetworkRequest) :=
  if negb (isSupportedOS env) then ret None
  else if isFlatpak env then ret None
  else if isNightly env then ret None
  else
    let url := "https://chatterinohomies.com/api/latest-release" in
    req <- execute (NetworkRequest_ url
                      |> timeout 60000
                      |> onSuccess (checkForUpdates_onSuccess env)) ;;
    setStatus_ Searching ;;
    ret (Some req).

(** *** An entry point followed by the completion of its request *)

Definition then_deliver (start : M (option NetworkRequest)) (c : Completion)
  : M (option Outcome) :=
  sent <- start ;;
  match sent with
  | Some r => deliver r c
  | None => ret None
  end.

Definition check_and_complete (env : Env) (c : Completion)
  : M (option Outcome) :=
  then_deliver (checkForUpdates env) c.

Definition install_and_complete (env : Env) (c : Completion)
  : M (option Outcome) :=
  then_deliver (installUpdates env) c.

(* ===================================================================== *)
(** ** Concrete surroundings and payloads used in the examples *)
(* ===================================================================== *)

(** A desktop build that passes the guards of [checkForUpdates]; the
    parameters are the platform, the portable mode, what a write returns
    and whether a launch succeeds. *)
Definition desktop (p : Platform) (portable : bool) (written : Z)
    (launches : bool) : Env :=
  mkEnv p true false false portable "C:/misc" "C:/app"
    (fun dir name => dir ++ "/" ++ name)
    (fun _ => true) (fun _ _ => written) (fun _ _ => launches).

(** The same build flagged nightly. *)
Definition nightly (p : Platform) : Env :=
  mkEnv p true false true false "C:/misc" "C:/app"
    (fun dir name => dir ++ "/" ++ name)
    (fun _ => true) (fun _ _ => 0%Z) (fun _ _ => true).


(** An installed Windows build where the write goes through (2 bytes) and
    the installer cannot be started. *)
Definition broken_launcher : Env := desktop Windows false 2 false.

(** A complete release document with the given tag. *)
Definition release (tag : string) : QJsonObject :=
  [("tag_name", JString tag);
   ("download",
    JObject
      [("installer", JObject [("url", JString "https://example.org/i.exe")]);
       ("portable", JObject [("url", JString "https://example.org/p.zip")])])].

(** A release document with nothing but the tag. *)
Definition tag_only (tag : string) : QJsonObject := [("tag_name", JString tag)].

Definition body_of (object : QJsonObject) : NetworkResult := mkResult "" object.

(** The members once a check has found an update. *)
Definition found_update : Updates :=
  mkUpdates "2.0.0" "v.2.1.0" UpdateAvailable false
    "https://example.org/i.exe" "https://example.org/p.zip"
    "https://chatterino.com".

(* ===================================================================== *)
(** ** Vocabulary for the statements *)
(* ===================================================================== *)

(** None of the three guards of [checkForUpdates] fires. *)
Definition passes_guards (env : Env) : bool :=
  isSupportedOS env && negb (isFlatpak env) && negb (isNightly env).

(** The request ended without a response: network error or timeout. *)
Definition is_failure (c : Completion) : bool :=
  match c with
  | Succeeded _ => false
  | Failed _ | TimedOut => true
  end.

(** The members of the release document the success callback looks at. *)
Definition tag_name_of (object : QJsonObject) : QJsonValue :=
  value object "tag_name".

Definition installer_url_of (object : QJsonObject) : QJsonValue :=
  value (toObject (value (toObject (value object "download")) "installer"))
    "url".

Definition portable_url_of (object : QJsonObject) : QJsonValue :=
  value (toObject (value (toObject (value object "download")) "portable"))
    "url".

(** What the platform requires of the release document beyond the tag:
    both download addresses on Windows, nothing elsewhere. *)
Definition downloads_present (env : Env) (object : QJsonObject) : bool :=
  match platform env with
  | Windows =>
      isString (installer_url_of object) && isString (portable_url_of object)
  | _ => true
  end.

(** The notification [setStatus_] posts when the status goes from [old] to
    [new]. *)
Definition notification (old new : Status) : list Event :=
  if Status_eqb old new then [] else [PostToThread (StatusUpdated new)].

(** The request [checkForUpdates] sends: a success callback and no error
    callback. *)
Definition check_request (env : Env) : NetworkRequest :=
  NetworkRequest_ "https://chatterinohomies.com/api/latest-release"
    |> timeout 60000
    |> onSuccess (checkForUpdates_onSuccess env).

(** What [checkForUpdates] causes before the query completes. *)
Definition check_prefix (this : Updates) : list Event :=
  Execute "https://chatterinohomies.com/api/latest-release" (Some 60000%Z)
  :: notification (status_ this) Searching.

(** Where the downloaded artifact is written. *)
Definition artifact_path (env : Env) : string :=
  combinePath env (miscDirectory env)
    (if isPortable env then "update.zip" else "Update.exe").

(** The write of the artifact reports an error: [file.write] returns -1,
    which it also does when the file could not be opened. *)
Definition write_reports_error (env : Env) (data : string) : bool :=
  negb (open_succeeds env (artifact_path env))
  || (write_result env (artifact_path env) data =? -1)%Z.

(** The request [installUpdates] sends on Windows. *)
Definition install_request (env : Env) (this : Updates) : NetworkRequest :=
  if isPortable env then
    NetworkRequest_ (updatePortable_ this)
      |> timeout 600000
      |> onError installPortable_onError
      |> onSuccess (installPortable_onSuccess env)
  else
    NetworkRequest_ (updateExe_ this)
      |> timeout 600000
      |> onError installExe_onError
      |> onSuccess (installExe_onSuccess env).

(** The events of opening the artifact file and writing the bytes. *)
Definition write_events (env : Env) (data : string) : list Event :=
  [FileOpen (artifact_path env); FileWrite (artifact_path env) data].

Definition text_launch_failed : string :=
  "Failed to execute update binary. This could be due to window settings or antivirus software."
    ++ nl ++ nl ++ "Try manually downloading the update.".

(** What [installUpdates] causes before the download completes. *)
Definition install_prefix (env : Env) (this : Updates) : list Event :=
  [MessageBox Show text_downloading;
   Execute (if isPortable env then updatePortable_ this else updateExe_ this)
     (Some 600000%Z)]
  ++ notification (status_ this) Downloading.

(* ===================================================================== *)
(** ** Calls and completions in any order *)
(* ===================================================================== *)

(** The two entry points are called from the user interface and the
    requests they send complete later, in whatever order the network
    decides.  A [System] is the object together with the requests that are
    still under way and everything that has happened so far; an [Action] is
    one thing that happens next. *)
Inductive Action : Type :=
  | CallCheck                              (* checkForUpdates() *)
  | CallInstall                            (* installUpdates() *)
  | Complete (n : nat) (c : Completion).   (* the n-th pending request ends *)

Record System : Type := mkSystem {
  object : Updates;
  pending : list NetworkRequest;
  history : list Event
}.

Definition sent_requests (sent : option NetworkRequest) : list NetworkRequest :=
  match sent with
  | Some r => [r]
  | None => []
  end.

Fixpoint remove_nth {A : Type} (n : nat) (l : list A) : list A :=
  match n, l with
  | _, [] => []
  | O, _ :: rest => rest
  | S n', x :: rest => x :: remove_nth n' rest
  end.

Definition perform (env : Env) (a : Action) (s : System) : System :=
  match a with
  | CallCheck =>
      let '(sent, this, t) := checkForUpdates env (object s) in
      mkSystem this (pending s ++ sent_requests sent)%list
        (history s ++ t)%list
  | CallInstall =>
      let '(sent, this, t) := installUpdates env (object s) in
      mkSystem this (pending s ++ sent_requests sent)%list
        (history s ++ t)%list
  | Complete n c =>
      match nth_error (pending s) n with
      | Some r =>
          let '(_, this, t) := deliver r c (object s) in
          mkSystem this (remove_nth n (pending s)) (history s ++ t)%list
      | None => s
      end
  end.

Definition run (env : Env) (actions : list Action) (s : System) : System :=
  fold_left (fun s a => perform env a s) actions s.

(** The program right after start. *)
Definition boot (CHATTERINO_VERSION : string) : System :=
  mkSystem (Updates_new CHATTERINO_VERSION) [] [].

(** A whole update on a portable Windows build: check, response, install,
    download. *)
Definition update_session : list Action :=
  [CallCheck;
   Complete 0 (Succeeded (body_of (release "v.2.1.0")));
   CallInstall;
   Complete 0 (Succeeded (mkResult "PK" []))].

(** What the version members say about each other once a check has given
    its verdict. *)
Definition verdict_consistent (this : Updates) : Prop :=
  (status_ this = NoUpdateAvailable ->
   onlineVersion_ this = "v." ++ currentVersion_ this) /\
  (status_ this = UpdateAvailable ->
   onlineVersion_ this <> "v." ++ currentVersion_ this /\
   isDowngrade_ this =
     isDowngradeOf (onlineVersion_ this) (currentVersion_ this)).

(** Reads a trace from left to right: every process exit must come after a
    write of the artifact.  [written] says whether a write has been seen. *)
Fixpoint exits_follow_writes (written : bool) (t : list Event) : bool :=
  match t with
  | [] => true
  | FileWrite _ _ :: rest => exits_follow_writes true rest
  | ApplicationExit _ :: rest => written && exits_follow_writes written rest
  | _ :: rest => exits_follow_writes written rest
  end.

(** Replays the posted status notifications of a trace on a listener that
    starts from status [s]: the status the listener ends with, or [None] if
    it is ever told the status it already has. *)
Fixpoint replay (s : Status) (t : list Event) : option Status :=
  match t with
  | [] => Some s
  | PostToThread (StatusUpdated s') :: rest =>
      if Status_eqb s s' then None else replay s' rest
  | _ :: rest => replay s rest
  end.

(** What every call and every callback of the class keeps: the verdict
    stays consistent, the version of the build and the guide link stay as
    they are, a process exit is requested only after a write, and the
    notifications lead a listener from the old status to the new one. *)
Definition step_keeps (this this' : Updates) (t : list Event) : Prop :=
  (verdict_consistent this -> verdict_consistent this') /\
  currentVersion_ this' = currentVersion_ this /\
  updateGuideLink_ this' = updateGuideLink_ this /\
  (forall written, exits_follow_writes written t = true) /\
  replay (status_ this) t = Some (status_ this').

(** The callbacks this class registers. *)
Definition registered_by_Updates (env : Env) (r : NetworkRequest) : Prop :=
  (req_onSuccess r = Some (checkForUpdates_onSuccess env) /\
   req_onError r = None) \/
  (req_onSuccess r = Some (installPortable_onSuccess env) /\
   req_onError r = Some installPortable_onError) \/
  (req_onSuccess r = Some (installExe_onSuccess env) /\
   req_onError r = Some installExe_onError).

(* ===================================================================== *)
(** ** 7TV badges: [src/providers/seventv/SeventvBadges.cpp] *)
(* ===================================================================== *)

(** [QJsonValue::toArray()]: the empty array for anything else. *)
Definition toArray (v : QJsonValue) : list QJsonValue :=
  match v with
  | JArray items => items
  | _ => []
  end.

(** The two maps of the class are keyed by [QString]. *)
Module StringMap := FMapList.Make String_as_OT.
Module StringMapFacts := FMapFacts.WFacts_fun String_as_OT StringMap.

Module seventv.

Local Set Implicit Arguments.

Section Badges.

(** [ImageSet] (messages/ImageSet.hpp) and [SeventvEmotes::createImageSet]
    are not part of the sources at hand; the class uses the type through
    the three operations below, which are taken as given. *)
Variable ImageSet : Type.
(* ImageSet{Url{..}, Url{..}, Url{..}} *)
Variable ImageSet_of_urls : string -> string -> string -> ImageSet.
(* SeventvEmotes::createImageSet(badgeJson) *)
Variable createImageSet : QJsonObject -> ImageSet.
(* images.getImage1()->isEmpty() *)
Variable image1_isEmpty : ImageSet -> bool.

(** The [Emote] aggregate as the class fills it in.  An [EmotePtr] points
    to a constant [Emote] and is never compared by address, so it is the
    emote. *)
Record Emote : Type := mkEmote {
  name : string;
  images : ImageSet;
  tooltip : string;
  homePage : string;
  id : string
}.

(** The data members; a [UserId] is used through its [string] only.  The
    mutex is left out: every member function holds it from its first
    access to its return, so calls act one after the other. *)
Record SeventvBadges : Type := mkBadges {
  badgeMap_ : StringMap.t Emote;      (* user id -> badge *)
  knownBadges_ : StringMap.t Emote    (* badge id -> badge *)
}.

Definition SeventvBadges_new : SeventvBadges :=
  mkBadges (StringMap.empty Emote) (StringMap.empty Emote).

(** [SeventvBadges::getBadge] *)
Definition getBadge (this : SeventvBadges) (userID : string) : option Emote :=
  StringMap.find userID (badgeMap_ this).

(** [SeventvBadges::assignBadgeToUser] *)
Definition assignBadgeToUser (badgeID userID : string) (this : SeventvBadges)
  : SeventvBadges :=
  match StringMap.find badgeID (knownBadges_ this) with
  | Some badge =>
      mkBadges (StringMap.add userID badge (badgeMap_ this))
        (knownBadges_ this)
  | None => this
  end.

(** [SeventvBadges::clearBadgeFromUser] *)
Definition clearBadgeFromUser (badgeID userID : string) (this : SeventvBadges)
  : SeventvBadges :=
  match StringMap.find userID (badgeMap_ this) with
  | Some badge =>
      if id badge =? badgeID then
        mkBadges (StringMap.remove userID (badgeMap_ this))
          (knownBadges_ this)
      else this
  | None => this
  end.

(** [SeventvBadges::addBadge] *)
Definition addBadge (badgeJson : QJsonObject) (this : SeventvBadges)
  : SeventvBadges :=
  let badgeID := toString (value badgeJson "id") in
  if StringMap.mem badgeID (knownBadges_ this) then this
  else
    let emote :=
      mkEmote "" (createImageSet badgeJson)
        (toString (value badgeJson "tooltip")) "" badgeID in
    if image1_isEmpty (images emote) then this
    else
      mkBadges (badgeMap_ this)
        (StringMap.add badgeID emote (knownBadges_ this)).

(** [urls[i].toArray()[1].toString()].  Both subscripts are the non-const
    [QJsonArray::operator[]], which requires a valid index; [None] where
    one is not. *)
Definition badge_url (urls : list QJsonValue) (i : nat) : option string :=
  match nth_error urls i with
  | Some entry =>
      match nth_error (toArray entry) 1 with
      | Some url => Some (toString url)
      | None => None
      end
  | None => None
  end.

(** The emote the success callback of [loadSeventvBadges] builds for one
    entry of the feed.  ([badge["id"]] on the local copy reads as
    [value]: a missing member gives the empty string either way.) *)
Definition feed_emote (badge : QJsonObject) : option Emote :=
  let badgeID := toString (value badge "id") in
  let urls := toArray (value badge "urls") in
  match badge_url urls 0, badge_url urls 1, badge_url urls 2 with
  | Some url1, Some url2, Some url3 =>
      Some (mkEmote "" (ImageSet_of_urls url1 url2 url3)
              (toString (value badge "tooltip")) "" badgeID)
  | _, _, _ => None
  end.

(** The inner loop: every listed user gets the emote. *)
Definition assign_users (users : list QJsonValue) (emote : Emote)
    (badgeMap : StringMap.t Emote) : StringMap.t Emote :=
  fold_left (fun m user => StringMap.add (toString user) emote m)
    users badgeMap.

(** One round of the outer loop. *)
Definition load_badge (this : SeventvBadges) (jsonBadge : QJsonValue)
  : option SeventvBadges :=
  let badge := toObject jsonBadge in
  match feed_emote badge with
  | Some emote =>
      Some (mkBadges
              (assign_users (toArray (value badge "users")) emote
                 (badgeMap_ this))
              (StringMap.add (id emote) emote (knownBadges_ this)))
  | None => None
  end.

Fixpoint load_badges (badges : list QJsonValue) (this : SeventvBadges)
  : option SeventvBadges :=
  match badges with
  | [] => Some this
  | jsonBadge :: rest =>
      match load_badge this jsonBadge with
      | Some this' => load_badges rest this'
      | None => None
      end
  end.

(** The success callback of [SeventvBadges::loadSeventvBadges]. *)
Definition loadSeventvBadges_onSuccess (result : NetworkResult)
    (this : SeventvBadges) : option (Outcome * SeventvBadges) :=
  let root := parseJson result in
  match load_badges (toArray (value root "badges")) this with
  | Some this' => Some (Success, this')
  | None => None
  end.

(** *** Vocabulary for the statements *)

(** The feed entry lists the user. *)
Definition lists_user (jsonBadge : QJsonValue) (userID : string) : bool :=
  existsb (fun user => toString user =? userID)
    (toArray (value (toObject jsonBadge) "users")).

(** The feed entry is about this badge id. *)
Definition has_id (jsonBadge : QJsonValue) (badgeID : string) : bool :=
  toString (value (toObject jsonBadge) "id") =? badgeID.

(** Every known badge is filed under its own id. *)
Definition filed_by_id (this : SeventvBadges) : Prop :=
  forall key badge,
    StringMap.find key (knownBadges_ this) = Some badge -> id badge = key.

(** Every badge a user wears has the id of a known badge. *)
Definition worn_are_known (this : SeventvBadges) : Prop :=
  forall userID badge,
    StringMap.find userID (badgeMap_ this) = Some badge ->
    StringMap.mem (id badge) (knownBadges_ this) = true.

(** What can be done to the object from outside. *)
Inductive Operation : Type :=
  | AddBadge (badgeJson : QJsonObject)
  | AssignBadgeToUser (badgeID userID : string)
  | ClearBadgeFromUser (badgeID userID : string)
  | FeedArrives (result : NetworkResult).

Definition apply_operation (op : Operation) (this : SeventvBadges)
  : option SeventvBadges :=
  match op with
  | AddBadge badgeJson => Some (addBadge badgeJson this)
  | AssignBadgeToUser badgeID userID =>
      Some (assignBadgeToUser badgeID userID this)
  | ClearBadgeFromUser badgeID userID =>
      Some (clearBadgeFromUser badgeID userID this)
  | FeedArrives result =>
      option_map snd (loadSeventvBadges_onSuccess result this)
  end.

Fixpoint apply_operations (ops : list Operation) (this : SeventvBadges)
  : option SeventvBadges :=
  match ops with
  | [] => Some this
  | op :: rest =>
      match apply_operation op this with
      | Some this' => apply_operations rest this'
      | None => None
      end
  end.

End Badges.

(** *** A concrete image set for the examples: the three addresses *)

Definition three_urls : Type := string * string * string.

Definition three_urls_of (url1 url2 url3 : string) : three_urls :=
  (url1, url2, url3).

(** Reads the addresses the way the feed stores them. *)
Definition three_urls_of_json (badgeJson : QJsonObject) : three_urls :=
  let urls := toArray (value badgeJson "urls") in
  let url i := toString (nth 1 (toArray (nth i urls JUndefined)) JUndefined) in
  (url 0%nat, url 1%nat, url 2%nat).

Definition first_is_empty (images : three_urls) : bool :=
  fst (fst images) =? "".

(** A feed entry with the given id and users. *)
Definition feed_entry (badgeID : string) (users : list string) : QJsonValue :=
  JObject
    [("id", JString badgeID);
     ("tooltip", JString "Subscriber");
     ("urls",
      JArray [JArray [JString "1"; JString "https://cdn.7tv.app/badge/1x"];
              JArray [JString "2"; JString "https://cdn.7tv.app/badge/2x"];
              JArray [JString "3"; JString "https://cdn.7tv.app/badge/3x"]]);
     ("users", JArray (map JString users))].

Definition feed (entries : list QJsonValue) : NetworkResult :=
  mkResult "" [("badges", JArray entries)].

(** A feed with two badges; bob is listed by both. *)
Definition two_badges : list QJsonValue :=
  [feed_entry "sub" ["alice"; "bob"]; feed_entry "mod" ["bob"]].

(** The object after that feed has arrived on the empty one. *)
Definition after_two_badges : SeventvBadges three_urls :=
  match load_badges three_urls_of two_badges (SeventvBadges_new three_urls) with
  | Some this => this
  | None => SeventvBadges_new three_urls
  end.

(** The badge the feed builds for an entry. *)
Definition badge_of_entry (badgeID : string) : Emote three_urls :=
  mkEmote ""
    ("https://cdn.7tv.app/badge/1x", "https://cdn.7tv.app/badge/2x",
     "https://cdn.7tv.app/badge/3x")
    "Subscriber" "" badgeID.

End seventv.

(* ===================================================================== *)
(** ** Facts about the version order *)
(* ===================================================================== *)

Module semver_facts.
Import semver.

Lemma string_compare_refl (s : string) : String.compare s s = Eq.
Proof.
  pose proof (String.compare_antisym s s) as H.
  destruct (String.compare s s); simpl in H; congruence.
Qed.

Lemma compare_identifier_refl (a : identifier) : compare_identifier a a = Eq.
Proof.
  destruct a as [n | s]; simpl.
  - apply N.compare_refl.
  - apply string_compare_refl.
Qed.

Lemma compare_identifier_eq (a b : identifier) :
  compare_identifier a b = Eq -> a = b.
Proof.
  destruct a as [n | s], b as [m | t]; simpl; intro H; try discriminate.
  - apply N.compare_eq_iff in H. now subst.
  - apply String.compare_eq_iff in H. now subst.
Qed.

Lemma compare_identifier_lt (a b : identifier) :
  compare_identifier a b = Lt <-> identifier_lt a b.
Proof.
  split.
  - destruct a as [n | s], b as [m | t]; simpl; intro H;
      try discriminate; constructor; trivial.
  - intros [n m H | n s | s t H]; simpl; trivial.
Qed.

Lemma compare_identifiers_refl (p : list identifier) :
  compare_identifiers p p = Eq.
Proof.
  induction p as [| a p IH]; simpl; trivial.
  now rewrite compare_identifier_refl.
Qed.

Lemma identifier_lt_irrefl (a : identifier) : ~ identifier_lt a a.
Proof.
  intro H. apply compare_identifier_lt in H.
  rewrite compare_identifier_refl in H. discriminate.
Qed.

Lemma compare_identifiers_lt (p q : list identifier) :
  compare_identifiers p q = Lt <-> identifiers_lt p q.
Proof.
  revert q. induction p as [| a p IH]; intros [| b q]; simpl.
  - split; [discriminate | inversion 1].
  - split; [constructor | trivial].
  - split; [discriminate | inversion 1].
  - destruct (compare_identifier a b) eqn:E.
    + apply compare_identifier_eq in E. subst b.
      rewrite IH. split.
      * apply lt_later.
      * inversion 1; subst; trivial.
        now exfalso; apply (identifier_lt_irrefl a).
    + apply compare_identifier_lt in E.
      split; [intros _; now apply lt_here | trivial].
    + split; [discriminate |].
      inversion 1; subst.
      * match goal with
        | H : identifier_lt _ _ |- _ => apply compare_identifier_lt in H
        end.
        congruence.
      * rewrite compare_identifier_refl in E. discriminate.
Qed.

Lemma compare_prerelease_refl (p : list identifier) :
  compare_prerelease p p = Eq.
Proof.
  destruct p as [| a p]; trivial.
  apply (compare_identifiers_refl (a :: p)).
Qed.

Lemma compare_prerelease_lt (p q : list identifier) :
  compare_prerelease p q = Lt <-> prerelease_lt p q.
Proof.
  destruct p as [| a p], q as [| b q]; unfold compare_prerelease.
  - split; [discriminate | inversion 1].
  - split; [discriminate | inversion 1].
  - split; [constructor | trivial].
  - rewrite compare_identifiers_lt. split.
    + apply lt_tags.
    + now inversion 1.
Qed.

Lemma compare_refl (v : version) : compare v v = Eq.
Proof.
  unfold compare. rewrite !N.compare_refl. simpl.
  apply compare_prerelease_refl.
Qed.

(** The executable order decides the precedence of the standard. *)
Lemma ltb_precedes (v w : version) : ltb v w = true <-> precedes v w.
Proof.
  unfold ltb, compare, then_compare. split.
  - destruct (major v ?= major w)%N eqn:E1; try discriminate.
    + apply N.compare_eq_iff in E1.
      destruct (minor v ?= minor w)%N eqn:E2; try discriminate.
      * apply N.compare_eq_iff in E2.
        destruct (patch v ?= patch w)%N eqn:E3; try discriminate.
        -- apply N.compare_eq_iff in E3.
           destruct (compare_prerelease (prerelease v) (prerelease w)) eqn:E4;
             try discriminate.
           intros _. apply precedes_prerelease; trivial.
           now apply compare_prerelease_lt.
        -- intros _. now apply precedes_patch.
      * intros _. now apply precedes_minor.
    + intros _. now apply precedes_major.
  - intros [H | H1 H | H1 H2 H | H1 H2 H3 H].
    + unfold N.lt in H. now rewrite H.
    + unfold N.lt in H.
      rewrite H1, N.compare_refl. now rewrite H.
    + unfold N.lt in H.
      rewrite H1, H2, !N.compare_refl. now rewrite H.
    + apply compare_prerelease_lt in H.
      rewrite H1, H2, H3, !N.compare_refl. now rewrite H.
Qed.

Lemma compare_identifier_antisym (a b : identifier) :
  compare_identifier b a = CompOpp (compare_identifier a b).
Proof.
  destruct a as [n | s], b as [m | t]; simpl; trivial.
  - apply N.compare_antisym.
  - apply String.compare_antisym.
Qed.

Lemma compare_identifiers_antisym (p q : list identifier) :
  compare_identifiers q p = CompOpp (compare_identifiers p q).
Proof.
  revert q. induction p as [| a p IH]; intros [| b q]; simpl; trivial.
  rewrite (compare_identifier_antisym a b).
  destruct (compare_identifier a b); simpl; trivial.
Qed.

Lemma compare_prerelease_antisym (p q : list identifier) :
  compare_prerelease q p = CompOpp (compare_prerelease p q).
Proof.
  destruct p as [| a p], q as [| b q]; trivial.
  apply (compare_identifiers_antisym (a :: p) (b :: q)).
Qed.

Lemma compare_antisym (v w : version) : compare w v = CompOpp (compare v w).
Proof.
  unfold compare, then_compare.
  rewrite (N.compare_antisym (major v) (major w)).
  rewrite (N.compare_antisym (minor v) (minor w)).
  rewrite (N.compare_antisym (patch v) (patch w)).
  rewrite (compare_prerelease_antisym (prerelease v) (prerelease w)).
  destruct (major v ?= major w)%N; simpl; trivial.
  destruct (minor v ?= minor w)%N; simpl; trivial.
  destruct (patch v ?= patch w)%N; simpl; trivial.
Qed.

Lemma ltb_asym (v w : version) : ltb v w = true -> ltb w v = false.
Proof.
  unfold ltb. rewrite (compare_antisym v w).
  destruct (compare v w); simpl; trivial; discriminate.
Qed.

Lemma ltb_irrefl (v : version) : ltb v v = false.
Proof. unfold ltb. now rewrite compare_refl. Qed.

Lemma precedes_irrefl (v : version) : ~ precedes v v.
Proof.
  intro H. apply ltb_precedes in H. rewrite ltb_irrefl in H. discriminate.
Qed.

End semver_facts.

(* ===================================================================== *)
(** ** Facts about the version parser *)
(* ===================================================================== *)

Module parser_facts.
Import semver.

Lemma numeric_digit_first (c : ascii) (rest : string) (n : N) :
  numeric (String c rest) = Some n -> is_digit c = true.
Proof.
  unfold numeric. simpl all_chars.
  destruct (is_digit c); [trivial | discriminate].
Qed.

Lemma split_keeps_first (sep c : ascii) (rest : string) :
  Ascii.eqb c sep = false ->
  exists field fields, split sep (String c rest) = String c field :: fields.
Proof.
  intro H. simpl. rewrite H.
  destruct (split sep rest) as [| field fields]; eauto.
Qed.

Lemma cut_keeps_first (sep c : ascii) (rest : string) :
  Ascii.eqb c sep = false ->
  exists before after, cut sep (String c rest) = (String c before, after).
Proof.
  intro H. simpl. rewrite H.
  destruct (cut sep rest) as [before after]; eauto.
Qed.

(** A text that parses as a version starts with a digit. *)
Lemma from_string_digit_first (c : ascii) (rest : string) (v : version) :
  from_string_noexcept (String c rest) = Some v -> is_digit c = true.
Proof.
  unfold from_string_noexcept.
  destruct (Ascii.eqb c "+") eqn:Eplus.
  { simpl. rewrite Eplus. simpl. discriminate. }
  destruct (cut_keeps_first "+" c rest Eplus) as (r1 & build_part & ->).
  destruct (Ascii.eqb c "-") eqn:Eminus.
  { simpl. rewrite Eminus. simpl. discriminate. }
  destruct (cut_keeps_first "-" c r1 Eminus) as (core & pre_part & ->).
  destruct (Ascii.eqb c ".") eqn:Edot.
  { simpl split. rewrite Edot.
    destruct (split "." core) as [| mi [| pa [| x more]]]; discriminate. }
  destruct (split_keeps_first "." c core Edot) as (ma & fields & ->).
  destruct fields as [| mi [| pa [| x more]]]; try discriminate.
  destruct (numeric (String c ma)) eqn:En; [| discriminate].
  intros _. now apply numeric_digit_first in En.
Qed.

Lemma from_string_empty : from_string_noexcept "" = None.
Proof. reflexivity. Qed.

(** A tag with the [v.] prefix is not a version. *)
Lemma from_string_v_prefix (s : string) : from_string_noexcept ("v." ++ s) = None.
Proof.
  destruct (from_string_noexcept ("v." ++ s)) as [v |] eqn:E; trivial.
  apply from_string_digit_first in E. discriminate.
Qed.

End parser_facts.

(** *** The parser and the order on a few texts *)

Example parse_plain :
  semver.from_string_noexcept "2.0.0" = Some (semver.mkVersion 2 0 0 [] []).
Proof. reflexivity. Qed.

Example parse_tagged :
  semver.from_string_noexcept "7.4.1-beta.2+build-5" =
  Some (semver.mkVersion 7 4 1
          [semver.Alphanumeric "beta"; semver.Numeric 2] ["build-5"]).
Proof. reflexivity. Qed.

Example parse_prefixed : semver.from_string_noexcept "v.1.0.0" = None.
Proof. reflexivity. Qed.

Example parse_two_fields : semver.from_string_noexcept "1.0" = None.
Proof. reflexivity. Qed.

Example parse_leading_zero : semver.from_string_noexcept "01.2.3" = None.
Proof. reflexivity. Qed.

Example downgrade_by_major : isDowngradeOf "1.0.0" "2.0.0" = true.
Proof. reflexivity. Qed.

Example downgrade_numbers_not_texts : isDowngradeOf "9.0.0" "10.0.0" = true.
Proof. reflexivity. Qed.

Example downgrade_release_candidate : isDowngradeOf "2.0.0-rc.1" "2.0.0" = true.
Proof. reflexivity. Qed.

Example upgrade_is_no_downgrade : isDowngradeOf "2.0.0" "1.9.0" = false.
Proof. reflexivity. Qed.

(** Unfolds the plumbing of the monad and of the effect primitives, and
    nothing else. *)
Ltac run_monad :=
  cbv beta iota zeta delta
    [bind ret get put emit execute messageBox openUrl postToThread
     applicationExit startDetached file_open file_write file_flush_close
     assert_].

(* ===================================================================== *)
(** ** The status setter *)
(* ===================================================================== *)

Lemma Status_eqb_eq (a b : Status) : Status_eqb a b = true <-> a = b.
Proof. destruct a, b; simpl; split; intro H; congruence. Qed.

Lemma Status_eqb_refl (a : Status) : Status_eqb a a = true.
Proof. now apply Status_eqb_eq. Qed.

Lemma Status_eqb_neq (a b : Status) : Status_eqb a b = false <-> a <> b.
Proof.
  rewrite <- Status_eqb_eq. destruct (Status_eqb a b); split; congruence.
Qed.

Lemma with_status_same (this : Updates) : with_status this (status_ this) = this.
Proof. now destruct this. Qed.

(** One equation for both branches of [setStatus_]. *)
Lemma setStatus__run (status : Status) (this : Updates) :
  setStatus_ status this =
  (tt, with_status this status, notification (status_ this) status).
Proof.
  unfold setStatus_, notification, bind, get, put, postToThread, emit, ret.
  destruct (Status_eqb (status_ this) status) eqn:E; simpl; trivial.
  apply Status_eqb_eq in E. subst status. now rewrite with_status_same.
Qed.

(** C10. Calling the status setter with the status already stored changes
    nothing and posts nothing; in general the stored status becomes the
    argument, no other member changes, and the trace consists of exactly
    one posted [statusUpdated] notification carrying the new status when the
    stored value changed, and of nothing when it did not. *)
Theorem setStatus__notifies_iff_changed (this : Updates) (status : Status) :
  let r := setStatus_ status this in
  (status = status_ this -> state_after r = this /\ trace_of r = []) /\
  state_after r = with_status this status /\
  (forall e, In e (trace_of r) <->
             e = PostToThread (StatusUpdated status) /\
             status_ (state_after r) <> status_ this) /\
  (status_ (state_after r) <> status_ this ->
   trace_of r = [PostToThread (StatusUpdated status)]).
Proof.
  cbv zeta. rewrite setStatus__run.
  unfold state_after, trace_of, notification; simpl.
  destruct (Status_eqb (status_ this) status) eqn:E.
  - apply Status_eqb_eq in E. subst status.
    rewrite with_status_same.
    split; [now intros _ |]. split; [trivial |]. split.
    + intro e; simpl. split; [intros [] | intros [_ H]; now elim H].
    + intro H. now elim H.
  - apply Status_eqb_neq in E.
    split; [intro H; now elim E |].
    split; [trivial |]. split; [| trivial].
    intro e; simpl. split.
    + intros [<- | []]. split; [trivial | congruence].
    + intros [-> _]. now left.
Qed.

Lemma setStatus__notifies_iff_changed_witness :
  state_after (setStatus_ Searching (Updates_new "2.0.0")) =
    with_status (Updates_new "2.0.0") Searching /\
  trace_of (setStatus_ Searching (Updates_new "2.0.0")) =
    [PostToThread (StatusUpdated Searching)] /\
  trace_of (setStatus_ Idle (Updates_new "2.0.0")) = [].
Proof.
  pose proof (setStatus__notifies_iff_changed (Updates_new "2.0.0") Searching)
    as (_ & Hstate & _ & Hpost).
  pose proof (setStatus__notifies_iff_changed (Updates_new "2.0.0") Idle)
    as (Hsame & _).
  split; [exact Hstate |].
  split; [apply Hpost; discriminate | apply Hsame; reflexivity].
Defined.

(* ===================================================================== *)
(** ** The version comparator *)
(* ===================================================================== *)

(** C4. [isDowngradeOf online current] is true exactly when both texts parse
    as semantic versions and the online one comes strictly before the
    current one in semantic-version precedence; when either text does not
    parse the answer is false (the function is total: it has an answer for
    every pair of texts); and no text is a downgrade of itself. *)
Theorem isDowngradeOf_iff_precedes (online current : string) :
  (isDowngradeOf online current = true <->
   exists o c,
     semver.from_string_noexcept online = Some o /\
     semver.from_string_noexcept current = Some c /\
     semver.precedes o c) /\
  (semver.from_string_noexcept online = None \/
   semver.from_string_noexcept current = None ->
   isDowngradeOf online current = false) /\
  (forall a, isDowngradeOf a a = false).
Proof.
  unfold isDowngradeOf. split; [| split].
  - destruct (semver.from_string_noexcept online) as [o |].
    + destruct (semver.from_string_noexcept current) as [c |].
      * rewrite semver_facts.ltb_precedes. split.
        -- intro H. now exists o, c.
        -- intros (o' & c' & Ho & Hc & H). congruence.
      * split; [discriminate | intros (o' & c' & _ & Hc & _); discriminate].
    + split; [discriminate | intros (o' & c' & Ho & _); discriminate].
  - intros [-> | ->]; trivial.
    now destruct (semver.from_string_noexcept online).
  - intro a. destruct (semver.from_string_noexcept a) as [v |]; trivial.
    apply semver_facts.ltb_irrefl.
Qed.

Lemma isDowngradeOf_iff_precedes_witness :
  isDowngradeOf "1.9.3" "2.0.0-beta" = true /\
  isDowngradeOf "v.1.0.0" "2.0.0" = false /\
  isDowngradeOf "2.0.0" "2.0.0" = false.
Proof.
  pose proof (isDowngradeOf_iff_precedes "1.9.3" "2.0.0-beta") as (Hiff & _).
  pose proof (isDowngradeOf_iff_precedes "v.1.0.0" "2.0.0") as (_ & Hnone & Hsame).
  split; [| split].
  - apply Hiff.
    exists (semver.mkVersion 1 9 3 [] []).
    exists (semver.mkVersion 2 0 0 [semver.Alphanumeric "beta"] []).
    split; [reflexivity | split; [reflexivity |]].
    apply semver.precedes_major. reflexivity.
  - apply Hnone. left. reflexivity.
  - apply Hsame.
Defined.

(** The answer is never true in both directions. *)
Lemma isDowngradeOf_asymmetric (a b : string) :
  isDowngradeOf a b = true -> isDowngradeOf b a = false.
Proof.
  unfold isDowngradeOf.
  destruct (semver.from_string_noexcept a) as [v |]; [| discriminate].
  destruct (semver.from_string_noexcept b) as [w |]; [| discriminate].
  apply semver_facts.ltb_asym.
Qed.

(* ===================================================================== *)
(** ** [checkForUpdates] *)
(* ===================================================================== *)

Lemma passes_guards_iff (env : Env) :
  passes_guards env = true <->
  isSupportedOS env = true /\ isFlatpak env = false /\ isNightly env = false.
Proof.
  unfold passes_guards.
  destruct (isSupportedOS env), (isFlatpak env), (isNightly env); simpl;
    intuition congruence.
Qed.

(** Past the guards the query is sent and the status is set to
    [Searching]. *)
Lemma checkForUpdates_sends (env : Env) (this : Updates) :
  passes_guards env = true ->
  checkForUpdates env this =
  (Some (check_request env), with_status this Searching, check_prefix this).
Proof.
  intro H. apply passes_guards_iff in H. destruct H as (H1 & H2 & H3).
  unfold checkForUpdates. rewrite H1, H2, H3. cbn [negb]. cbv iota.
  run_monad. rewrite setStatus__run. now rewrite !app_nil_r.
Qed.

(** C8. When the build is flagged nightly, or the operating system is not
    supported, or the program runs as a Flatpak, [checkForUpdates] returns
    at once: no request is sent, no member changes, nothing happens. *)
Theorem checkForUpdates_guarded (env : Env) (this : Updates) :
  isNightly env = true \/ isSupportedOS env = false \/ isFlatpak env = true ->
  checkForUpdates env this = (None, this, []) /\
  forall c, check_and_complete env c this = (None, this, []).
Proof.
  intro H.
  assert (E : checkForUpdates env this = (None, this, [])).
  { unfold checkForUpdates.
    destruct (isSupportedOS env), (isFlatpak env), (isNightly env); simpl;
      trivial; destruct H as [H | [H | H]]; discriminate. }
  split; [exact E |].
  intro c. unfold check_and_complete, then_deliver, bind. now rewrite E.
Qed.

Lemma checkForUpdates_guarded_witness :
  checkForUpdates (nightly Windows) (Updates_new "2.0.0") =
    (None, Updates_new "2.0.0", []) /\
  status_ (state_after (check_and_complete (nightly Windows) TimedOut
                          (Updates_new "2.0.0"))) = Idle.
Proof.
  destruct (checkForUpdates_guarded (nightly Windows) (Updates_new "2.0.0"))
    as (H1 & H2).
  - left. reflexivity.
  - split; [exact H1 |]. now rewrite H2.
Defined.

(** The query ends without a response: no callback is registered for that,
    so nothing further happens. *)
Lemma check_and_complete_failure (env : Env) (c : Completion) (this : Updates) :
  passes_guards env = true -> is_failure c = true ->
  check_and_complete env c this =
  (None, with_status this Searching, check_prefix this).
Proof.
  intros Hg Hc. unfold check_and_complete, then_deliver, bind.
  rewrite (checkForUpdates_sends _ _ Hg).
  destruct c as [r | r |]; try discriminate; simpl;
    now rewrite ?app_nil_r.
Qed.

(** The query ends with a response: the success callback runs on the
    members as [checkForUpdates] left them. *)
Lemma check_and_complete_success (env : Env) (result : NetworkResult)
    (this : Updates) :
  passes_guards env = true ->
  check_and_complete env (Succeeded result) this =
  let '(o, after, t) :=
    checkForUpdates_onSuccess env result (with_status this Searching) in
  (Some o, after, (check_prefix this ++ t)%list).
Proof.
  intro Hg. unfold check_and_complete, then_deliver, bind.
  rewrite (checkForUpdates_sends _ _ Hg). simpl. run_monad.
  destruct (checkForUpdates_onSuccess env result (with_status this Searching))
    as [[o after] t].
  now rewrite ?app_nil_r.
Qed.

(** *** The four ways through the success callback *)

Lemma onSuccess_no_tag (env : Env) (result : NetworkResult) (this : Updates) :
  isString (tag_name_of (parseJson result)) = false ->
  checkForUpdates_onSuccess env result this =
  (Failure, with_status this SearchFailed,
   notification (status_ this) SearchFailed).
Proof.
  unfold tag_name_of. intro H. unfold checkForUpdates_onSuccess.
  rewrite H. cbn [negb]. run_monad.
  rewrite setStatus__run. now rewrite ?app_nil_r.
Qed.

Lemma onSuccess_elsewhere (env : Env) (result : NetworkResult) (this : Updates) :
  isString (tag_name_of (parseJson result)) = true ->
  platform env <> Windows ->
  checkForUpdates_onSuccess env result this = (Failure, this, []).
Proof.
  unfold tag_name_of. intros H Hp. unfold checkForUpdates_onSuccess.
  rewrite H. cbn [negb]. cbv iota.
  destruct (platform env); trivial. now elim Hp.
Qed.

Lemma onSuccess_no_installer (env : Env) (result : NetworkResult)
    (this : Updates) :
  platform env = Windows ->
  isString (tag_name_of (parseJson result)) = true ->
  isString (installer_url_of (parseJson result)) = false ->
  checkForUpdates_onSuccess env result this =
  (Failure, with_status this SearchFailed,
   notification (status_ this) SearchFailed).
Proof.
  unfold tag_name_of, installer_url_of. intros Hp H1 H2.
  unfold checkForUpdates_onSuccess.
  rewrite H1, Hp, H2. cbn [negb]. run_monad.
  rewrite setStatus__run. now rewrite ?app_nil_r.
Qed.

Lemma onSuccess_no_portable (env : Env) (result : NetworkResult)
    (this : Updates) :
  platform env = Windows ->
  isString (tag_name_of (parseJson result)) = true ->
  isString (installer_url_of (parseJson result)) = true ->
  isString (portable_url_of (parseJson result)) = false ->
  checkForUpdates_onSuccess env result this =
  (Failure,
   with_status
     (with_updateExe this (toString (installer_url_of (parseJson result))))
     SearchFailed,
   notification (status_ this) SearchFailed).
Proof.
  unfold tag_name_of, installer_url_of, portable_url_of. intros Hp H1 H2 H3.
  unfold checkForUpdates_onSuccess.
  rewrite H1, Hp, H2, H3. cbn [negb]. run_monad.
  rewrite setStatus__run. now rewrite ?app_nil_r.
Qed.

Lemma onSuccess_complete (env : Env) (result : NetworkResult) (this : Updates) :
  platform env = Windows ->
  isString (tag_name_of (parseJson result)) = true ->
  isString (installer_url_of (parseJson result)) = true ->
  isString (portable_url_of (parseJson result)) = true ->
  let tag := toString (tag_name_of (parseJson result)) in
  let fetched :=
    with_onlineVersion
      (with_updatePortable
         (with_updateExe this (toString (installer_url_of (parseJson result))))
         (toString (portable_url_of (parseJson result))))
      tag in
  checkForUpdates_onSuccess env result this =
  if "v." ++ currentVersion_ this =? tag then
    (Failure, with_status fetched NoUpdateAvailable,
     notification (status_ this) NoUpdateAvailable)
  else
    (Failure,
     with_isDowngrade (with_status fetched UpdateAvailable)
       (isDowngradeOf tag (currentVersion_ this)),
     notification (status_ this) UpdateAvailable).
Proof.
  unfold tag_name_of, installer_url_of, portable_url_of. intros Hp H1 H2 H3.
  unfold checkForUpdates_onSuccess.
  rewrite H1, Hp, H2, H3. cbn [negb]. run_monad.
  cbn [currentVersion_ onlineVersion_ with_onlineVersion].
  destruct (_ =? _); cbn [negb]; cbv iota; rewrite setStatus__run;
    now rewrite ?app_nil_r.
Qed.

Lemma absent_is_not_string (object : QJsonObject) (key : string) :
  (forall v, ~ In (key, v) object) -> value object key = JUndefined.
Proof.
  induction object as [| [k v] rest IH]; simpl; trivial.
  intro H. destruct (String.eqb_spec k key) as [-> | _].
  - elim (H v). now left.
  - apply IH. intros w Hw. apply (H w). now right.
Qed.

(** Splits on which way the success callback takes, and rewrites with the
    matching equation. *)
Ltac callback_cases env result :=
  let Etag := fresh "Etag" in
  let Eexe := fresh "Eexe" in
  let Eportable := fresh "Eportable" in
  let Eplatform := fresh "Eplatform" in
  destruct (isString (tag_name_of (parseJson result))) eqn:Etag;
  [ destruct (platform env) eqn:Eplatform;
    [ destruct (isString (installer_url_of (parseJson result))) eqn:Eexe;
      [ destruct (isString (portable_url_of (parseJson result))) eqn:Eportable;
        [ rewrite (onSuccess_complete _ _ _ Eplatform Etag Eexe Eportable)
        | rewrite (onSuccess_no_portable _ _ _ Eplatform Etag Eexe Eportable) ]
      | rewrite (onSuccess_no_installer _ _ _ Eplatform Etag Eexe) ]
    | rewrite (onSuccess_elsewhere env result); [| trivial | congruence]
    | rewrite (onSuccess_elsewhere env result); [| trivial | congruence]
    | rewrite (onSuccess_elsewhere env result); [| trivial | congruence] ]
  | rewrite (onSuccess_no_tag _ _ _ Etag) ].




(** C1. What the code does when the query fails or times out: no error
    callback is registered on the request, so the status stays at
    [Searching], where [checkForUpdates] put it, and is not
    [SearchFailed]. *)
Theorem check_failure_leaves_Searching (env : Env) (c : Completion)
    (this : Updates) :
  passes_guards env = true ->
  is_failure c = true ->
  let r := check_and_complete env c this in
  status_ (state_after r) = Searching /\
  status_ (state_after r) <> SearchFailed /\
  trace_of r = check_prefix this /\
  req_onError (check_request env) = None.
Proof.
  intros Hg Hc r. subst r. rewrite (check_and_complete_failure _ _ _ Hg Hc).
  simpl. repeat split. discriminate.
Qed.

Lemma check_failure_leaves_Searching_witness :
  status_ (state_after
             (check_and_complete (desktop Windows false 0 true) TimedOut
                (Updates_new "2.0.0"))) = Searching.
Proof.
  apply (check_failure_leaves_Searching (desktop Windows false 0 true) TimedOut
           (Updates_new "2.0.0")); reflexivity.
Defined.

(** Off Windows the success callback returns right after the tag test, so a
    well-formed response leaves the status at [Searching] as well. *)
Lemma check_success_elsewhere_leaves_Searching (env : Env)
    (result : NetworkResult) (this : Updates) :
  passes_guards env = true ->
  platform env <> Windows ->
  isString (tag_name_of (parseJson result)) = true ->
  state_after (check_and_complete env (Succeeded result) this) =
  with_status this Searching.
Proof.
  intros Hg Hp Htag. rewrite (check_and_complete_success _ _ _ Hg).
  now rewrite (onSuccess_elsewhere _ _ _ Htag Hp).
Qed.

(** A tag that carries the [v.] prefix is handed to the comparator as it
    is, and the comparator cannot parse it. *)
Lemma isDowngradeOf_v_prefix (tag current : string) :
  isDowngradeOf ("v." ++ tag) current = false.
Proof.
  unfold isDowngradeOf. now rewrite parser_facts.from_string_v_prefix.
Qed.

(** C2. What the code does with the tag [v.1.0.0] (any tag with the [v.]
    prefix) against the current version 2.0.0 (any current version): the
    downgrade flag is not set, whatever the platform and the rest of the
    response; where the check goes through (Windows, both download
    addresses present) the status is [UpdateAvailable] and the flag is
    false. *)
Theorem check_v_prefixed_tag_not_downgrade (env : Env) (result : NetworkResult)
    (this : Updates) (tag : string) :
  passes_guards env = true ->
  tag_name_of (parseJson result) = JString ("v." ++ tag) ->
  isDowngrade_ this = false ->
  let after := state_after (check_and_complete env (Succeeded result) this) in
  isDowngrade after = false /\
  (platform env = Windows ->
   downloads_present env (parseJson result) = true ->
   tag <> currentVersion_ this ->
   status_ after = UpdateAvailable).
Proof.
  intros Hg Htag Hflag after. subst after.
  rewrite (check_and_complete_success _ _ _ Hg).
  unfold downloads_present, isDowngrade.
  callback_cases env result; rewrite ?Htag; cbn [toString];
    try (split; [exact Hflag | cbn; intros; congruence]).
  - cbn [with_status currentVersion_].
    destruct (String.eqb_spec ("v." ++ currentVersion_ this) ("v." ++ tag))
      as [E | E]; unfold state_after; cbn.
    + split; [exact Hflag |]. intros _ _ Hne. simpl in E.
      injection E as E. congruence.
    + split; [apply isDowngradeOf_v_prefix | trivial].
  - rewrite Htag in Etag. discriminate Etag.
Qed.

Lemma check_v_prefixed_tag_not_downgrade_witness :
  let after :=
    state_after
      (check_and_complete (desktop Windows false 0 true)
         (Succeeded (body_of (release "v.1.0.0"))) (Updates_new "2.0.0")) in
  isDowngrade after = false /\ status_ after = UpdateAvailable.
Proof.
  destruct (check_v_prefixed_tag_not_downgrade (desktop Windows false 0 true)
              (body_of (release "v.1.0.0")) (Updates_new "2.0.0") "1.0.0")
    as (H1 & H2); try reflexivity.
  split; [exact H1 |].
  apply H2; [reflexivity | reflexivity | discriminate].
Defined.

(** C3, as stated, fails: the fetched tag is compared with the current
    version behind the prefix [v.], so a tag that equals the current version
    string itself counts as an update; and off Windows a well-formed
    response changes no status at all. *)
Lemma check_equal_tag_counterexample :
  tag_name_of (release "2.0.0") =
    JString (currentVersion_ (Updates_new "2.0.0")) /\
  downloads_present (desktop Windows false 0 true) (release "2.0.0") = true /\
  status_ (state_after
             (check_and_complete (desktop Windows false 0 true)
                (Succeeded (body_of (release "2.0.0")))
                (Updates_new "2.0.0"))) = UpdateAvailable /\
  downloads_present (desktop Linux false 0 true) (tag_only "v.2.1.0") = true /\
  status_ (state_after
             (check_and_complete (desktop Linux false 0 true)
                (Succeeded (body_of (tag_only "v.2.1.0")))
                (Updates_new "2.0.0"))) = Searching.
Proof. repeat split. Qed.

(** C3, amended. On Windows, after a response in which the tag and both
    download addresses are strings, the online version is the fetched tag
    and the two addresses are stored; if the tag equals [v.] followed by the
    current version string the status is [NoUpdateAvailable] and the
    downgrade flag keeps the value it had; otherwise the status is
    [UpdateAvailable] and the downgrade flag is what [isDowngradeOf] answers
    for the fetched tag and the current version. *)
Theorem check_success_on_windows (env : Env) (result : NetworkResult)
    (this : Updates) (tag exe portable : string) :
  passes_guards env = true ->
  platform env = Windows ->
  tag_name_of (parseJson result) = JString tag ->
  installer_url_of (parseJson result) = JString exe ->
  portable_url_of (parseJson result) = JString portable ->
  let after := state_after (check_and_complete env (Succeeded result) this) in
  onlineVersion_ after = tag /\
  updateExe_ after = exe /\
  updatePortable_ after = portable /\
  currentVersion_ after = currentVersion_ this /\
  (tag = "v." ++ currentVersion_ this ->
   status_ after = NoUpdateAvailable /\
   isDowngrade_ after = isDowngrade_ this) /\
  (tag <> "v." ++ currentVersion_ this ->
   status_ after = UpdateAvailable /\
   isDowngrade_ after = isDowngradeOf tag (currentVersion_ this)).
Proof.
  intros Hg Hp Htag Hexe Hportable after. subst after.
  rewrite (check_and_complete_success _ _ _ Hg).
  rewrite onSuccess_complete; trivial;
    rewrite ?Htag, ?Hexe, ?Hportable; trivial.
  cbn [toString with_status currentVersion_].
  destruct (String.eqb_spec ("v." ++ currentVersion_ this) tag) as [E | E];
    unfold state_after; cbn -[append isDowngradeOf];
    repeat split; trivial; intros; congruence.
Qed.

Lemma check_success_on_windows_witness :
  status_ (state_after
             (check_and_complete (desktop Windows false 0 true)
                (Succeeded (body_of (release "v.2.0.0")))
                (Updates_new "2.0.0"))) = NoUpdateAvailable /\
  status_ (state_after
             (check_and_complete (desktop Windows false 0 true)
                (Succeeded (body_of (release "v.2.1.0")))
                (Updates_new "2.0.0"))) = UpdateAvailable.
Proof.
  split.
  - apply (check_success_on_windows (desktop Windows false 0 true)
             (body_of (release "v.2.0.0")) (Updates_new "2.0.0") "v.2.0.0"
             "https://example.org/i.exe" "https://example.org/p.zip");
      reflexivity.
  - apply (check_success_on_windows (desktop Windows false 0 true)
             (body_of (release "v.2.1.0")) (Updates_new "2.0.0") "v.2.1.0"
             "https://example.org/i.exe" "https://example.org/p.zip");
      try reflexivity.
    discriminate.
Defined.

(* ===================================================================== *)
(** ** [installUpdates] *)
(* ===================================================================== *)

(** C5. When the status is not [UpdateAvailable], [installUpdates] hits its
    assertion and returns: no request is sent, no member changes, and the
    assertion failure is the only thing that happens, so there is no
    network and no file operation, neither at once nor later. *)
Theorem installUpdates_not_available (env : Env) (this : Updates) :
  status_ this <> UpdateAvailable ->
  installUpdates env this = (None, this, [AssertFailed]) /\
  (forall c, install_and_complete env c this = (None, this, [AssertFailed])) /\
  existsb (fun e => is_network e || is_filesystem e || is_launch e || is_exit e)
    (trace_of (installUpdates env this)) = false.
Proof.
  intro H. apply Status_eqb_neq in H.
  assert (E : installUpdates env this = (None, this, [AssertFailed])).
  { unfold installUpdates. run_monad. now rewrite H. }
  split; [exact E |]. split.
  - intro c. unfold install_and_complete, then_deliver, bind. now rewrite E.
  - now rewrite E.
Qed.

Lemma installUpdates_not_available_witness :
  installUpdates (desktop Windows true 0 true) (Updates_new "2.0.0") =
    (None, Updates_new "2.0.0", [AssertFailed]) /\
  install_and_complete (desktop Windows false 0 true)
    (Succeeded (mkResult "MZ" [])) (with_status found_update SearchFailed) =
    (None, with_status found_update SearchFailed, [AssertFailed]).
Proof.
  split.
  - apply (installUpdates_not_available (desktop Windows true 0 true)
             (Updates_new "2.0.0")).
    discriminate.
  - apply (installUpdates_not_available (desktop Windows false 0 true)
             (with_status found_update SearchFailed)).
    discriminate.
Defined.

(** On Windows, with an update available, the download is requested and the
    status is set to [Downloading]. *)
Lemma installUpdates_sends (env : Env) (this : Updates) :
  platform env = Windows ->
  status_ this = UpdateAvailable ->
  installUpdates env this =
  (Some (install_request env this), with_status this Downloading,
   install_prefix env this).
Proof.
  intros Hp Hs. unfold installUpdates, install_request, install_prefix.
  run_monad. rewrite Hs, Hp. cbn [Status_eqb negb].
  destruct (isPortable env); run_monad; rewrite setStatus__run;
    rewrite Hs; now rewrite ?app_nil_r.
Qed.

Lemma written_error (opened : bool) (w : Z) :
  ((if opened then w else -1) =? -1)%Z = negb opened || (w =? -1)%Z.
Proof. now destruct opened. Qed.

(** The success callback of the portable download, in one equation. *)
Lemma installPortable_onSuccess_run (env : Env) (result : NetworkResult)
    (this : Updates) :
  isPortable env = true ->
  installPortable_onSuccess env result this =
  if write_reports_error env (getData result) then
    (Failure, with_status this WriteFileFailed,
     (write_events env (getData result)
        ++ notification (status_ this) WriteFileFailed)%list)
  else
    (Success, this,
     (write_events env (getData result)
        ++ [FileFlush (artifact_path env); FileClose (artifact_path env);
            StartDetached
              (combinePath env (applicationDirPath env)
                 "updater.1/ChatterinoUpdater.exe")
              [artifact_path env; "restart"];
            ApplicationExit 0])%list).
Proof.
  intro Hportable.
  unfold installPortable_onSuccess, write_reports_error, write_events,
    artifact_path.
  rewrite Hportable. run_monad. rewrite written_error.
  destruct (_ || _); run_monad; [rewrite setStatus__run |];
    now rewrite ?app_nil_r.
Qed.

(** The success callback of the installer download, in one equation. *)
Lemma installExe_onSuccess_run (env : Env) (result : NetworkResult)
    (this : Updates) :
  isPortable env = false ->
  installExe_onSuccess env result this =
  if write_reports_error env (getData result) then
    (Failure, with_status this WriteFileFailed,
     (write_events env (getData result)
        ++ notification (status_ this) WriteFileFailed
        ++ [MessageBox Exec
              ("Failed to save the update file. This could be due to window settings or antivirus software."
                 ++ nl ++ nl ++ "Try manually downloading the update.");
            OpenUrl (updateExe_ this)])%list)
  else
    (Success, this,
     (write_events env (getData result)
        ++ [FileFlush (artifact_path env); FileClose (artifact_path env);
            StartDetached (artifact_path env) []]
        ++ (if launch_succeeds env (artifact_path env) []
            then [ApplicationExit 0]
            else [MessageBox Exec text_launch_failed;
                  OpenUrl (updateExe_ this)]))%list).
Proof.
  intro Hportable.
  unfold installExe_onSuccess, write_reports_error, write_events,
    artifact_path, text_launch_failed.
  rewrite Hportable. run_monad. rewrite written_error.
  destruct (_ || _); run_monad.
  - rewrite setStatus__run. cbn [updateExe_ with_status].
    now rewrite ?app_nil_r.
  - now destruct (launch_succeeds env _ []).
Qed.

(** The download ends with a response: the success callback of the mode
    runs on the members as [installUpdates] left them. *)
Lemma install_and_complete_success (env : Env) (result : NetworkResult)
    (this : Updates) :
  platform env = Windows ->
  status_ this = UpdateAvailable ->
  install_and_complete env (Succeeded result) this =
  let '(o, after, t) :=
    (if isPortable env then installPortable_onSuccess env result
     else installExe_onSuccess env result) (with_status this Downloading) in
  (Some o, after, (install_prefix env this ++ t)%list).
Proof.
  intros Hp Hs. unfold install_and_complete, then_deliver, bind.
  rewrite (installUpdates_sends _ _ Hp Hs). unfold install_request.
  destruct (isPortable env); simpl; run_monad;
    match goal with
    | |- context [?f env result (with_status this Downloading)] =>
        destruct (f env result (with_status this Downloading)) as [[o after] t]
    end; now rewrite ?app_nil_r.
Qed.

(** The download fails or times out: the status is [DownloadFailed]. *)
Lemma install_and_complete_failure (env : Env) (c : Completion)
    (this : Updates) :
  platform env = Windows ->
  status_ this = UpdateAvailable ->
  is_failure c = true ->
  status_ (state_after (install_and_complete env c this)) = DownloadFailed /\
  existsb is_exit (trace_of (install_and_complete env c this)) = false.
Proof.
  intros Hp Hs Hc. unfold install_and_complete, then_deliver, bind.
  rewrite (installUpdates_sends _ _ Hp Hs).
  unfold install_request, install_prefix, notification. rewrite Hs.
  destruct c as [r | r |]; try discriminate;
    destruct (isPortable env); split; reflexivity.
Qed.




(** C7, as stated, fails: after a write that went through and a launch of
    the installer that failed, the status is [Downloading], which is not an
    error status. *)
Lemma install_launch_failure_counterexample :
  write_reports_error broken_launcher "MZ" = false /\
  launch_succeeds broken_launcher (artifact_path broken_launcher) [] = false /\
  status_ (state_after
             (install_and_complete broken_launcher
                (Succeeded (mkResult "MZ" [])) found_update)) = Downloading /\
  isError (state_after
             (install_and_complete broken_launcher
                (Succeeded (mkResult "MZ" [])) found_update)) = false.
Proof. repeat split. Qed.

(** C7, amended. In the installer mode, when the write went through and the
    launch of the installer fails, the status stays as [installUpdates] set
    it ([Downloading]; no failure status is set), the failure is shown in a
    dialog and the download address is opened, and no process exit is
    requested.  In the portable mode a process exit is requested only when
    the download succeeded and the write reported no error, and the write
    comes before the exit. *)
Theorem install_launch_failure_and_portable_exit (env : Env) (this : Updates) :
  platform env = Windows ->
  status_ this = UpdateAvailable ->
  (forall result,
     isPortable env = false ->
     write_reports_error env (getData result) = false ->
     launch_succeeds env (artifact_path env) [] = false ->
     let r := install_and_complete env (Succeeded result) this in
     status_ (state_after r) = Downloading /\
     existsb is_exit (trace_of r) = false /\
     In (MessageBox Exec text_launch_failed) (trace_of r) /\
     In (OpenUrl (updateExe_ this)) (trace_of r)) /\
  (forall c,
     isPortable env = true ->
     existsb is_exit (trace_of (install_and_complete env c this)) = true ->
     exists result before after,
       c = Succeeded result /\
       write_reports_error env (getData result) = false /\
       trace_of (install_and_complete env c this) =
         (before ++ ApplicationExit 0 :: after)%list /\
       In (FileWrite (artifact_path env) (getData result)) before /\
       existsb is_exit before = false).
Proof.
  intros Hp Hs. split.
  - intros result Hportable Hw Hl r. subst r.
    rewrite (install_and_complete_success _ _ _ Hp Hs).
    unfold install_prefix, notification. rewrite Hs, Hportable.
    rewrite (installExe_onSuccess_run _ _ _ Hportable), Hw, Hl.
    unfold state_after, trace_of, write_events.
    cbn -[text_launch_failed text_downloading].
    split; [reflexivity |]. split; [reflexivity |].
    split; [do 8 right; now left | do 9 right; now left].
  - intros c Hportable Hexit.
    destruct (is_failure c) eqn:Hc.
    { destruct (install_and_complete_failure _ _ _ Hp Hs Hc) as [_ H].
      congruence. }
    destruct c as [result | r |]; try discriminate.
    revert Hexit. rewrite (install_and_complete_success _ _ _ Hp Hs).
    unfold install_prefix, notification. rewrite Hs, Hportable.
    rewrite (installPortable_onSuccess_run _ _ _ Hportable).
    destruct (write_reports_error env (getData result)) eqn:Hw.
    { intro H. discriminate H. }
    intros _. exists result.
    exists [MessageBox Show text_downloading;
            Execute (updatePortable_ this) (Some 600000%Z);
            PostToThread (StatusUpdated Downloading);
            FileOpen (artifact_path env);
            FileWrite (artifact_path env) (getData result);
            FileFlush (artifact_path env); FileClose (artifact_path env);
            StartDetached
              (combinePath env (applicationDirPath env)
                 "updater.1/ChatterinoUpdater.exe")
              [artifact_path env; "restart"]].
    exists [].
    split; [reflexivity |]. split; [exact Hw |]. split; [reflexivity |].
    split; [do 4 right; now left | reflexivity].
Qed.

Lemma install_launch_failure_and_portable_exit_witness :
  status_ (state_after
             (install_and_complete broken_launcher
                (Succeeded (mkResult "MZ" [])) found_update)) = Downloading /\
  existsb is_exit
    (trace_of
       (install_and_complete broken_launcher
          (Succeeded (mkResult "MZ" [])) found_update)) = false /\
  write_reports_error (desktop Windows true 2 true) "PK" = false.
Proof.
  destruct (install_launch_failure_and_portable_exit broken_launcher
              found_update) as (Hinstaller & _); try reflexivity.
  destruct (Hinstaller (mkResult "MZ" [])) as (H1 & H2 & _); try reflexivity.
  destruct (install_launch_failure_and_portable_exit
              (desktop Windows true 2 true) found_update) as (_ & Hportable);
    try reflexivity.
  destruct (Hportable (Succeeded (mkResult "PK" [])))
    as (result & before & after & Hc & Hw & _); try reflexivity.
  injection Hc as <-.
  split; [exact H1 |]. split; [exact H2 | exact Hw].
Defined.

(* ===================================================================== *)
(** ** Further facts about the two flows *)
(* ===================================================================== *)

(** Every error status keeps the update button visible. *)
Lemma isError_shows_button (this : Updates) :
  isError this = true -> shouldShowUpdateButton this = true.
Proof.
  unfold isError, shouldShowUpdateButton.
  destruct (getStatus this); trivial; discriminate.
Qed.

(** On Windows every response ends the check in one of the three final
    statuses. *)
Lemma check_success_on_windows_final (env : Env) (result : NetworkResult)
    (this : Updates) :
  passes_guards env = true ->
  platform env = Windows ->
  let s := status_ (state_after
                      (check_and_complete env (Succeeded result) this)) in
  s = UpdateAvailable \/ s = NoUpdateAvailable \/ s = SearchFailed.
Proof.
  intros Hg Hp s. subst s. rewrite (check_and_complete_success _ _ _ Hg).
  callback_cases env result; try congruence; try (right; right; reflexivity).
  destruct (_ =? _); [right; left | left]; reflexivity.
Qed.

(** A failed or timed-out download never goes near the file system. *)
Lemma install_failure_touches_no_file (env : Env) (c : Completion)
    (this : Updates) :
  platform env = Windows ->
  status_ this = UpdateAvailable ->
  is_failure c = true ->
  existsb is_filesystem (trace_of (install_and_complete env c this)) = false.
Proof.
  intros Hp Hs Hc. unfold install_and_complete, then_deliver, bind.
  rewrite (installUpdates_sends _ _ Hp Hs).
  unfold install_request, install_prefix, notification. rewrite Hs.
  destruct c as [r | r |]; try discriminate;
    destruct (isPortable env); reflexivity.
Qed.

(** Off Windows [installUpdates] sends nothing and keeps the status: it
    shows a dialog and opens a page (macOS, Linux). *)
Lemma installUpdates_elsewhere (env : Env) (this : Updates) :
  platform env <> Windows ->
  status_ this = UpdateAvailable ->
  value_of (installUpdates env this) = None /\
  state_after (installUpdates env this) = this /\
  existsb (fun e => is_network e || is_filesystem e || is_launch e || is_exit e)
    (trace_of (installUpdates env this)) = false.
Proof.
  intros Hp Hs. unfold installUpdates. run_monad. rewrite Hs.
  cbn [Status_eqb negb].
  destruct (platform env); try (now elim Hp); repeat split.
Qed.

(* ===================================================================== *)
(** ** The download: failure, manual platforms, exit *)
(* ===================================================================== *)

(** X1. A download that fails or times out sets the status to
    [DownloadFailed] and changes nothing else; no file is touched, nothing
    is launched and no exit is requested.  Portable and installer mode
    alike. *)
Theorem install_failure_DownloadFailed (env : Env) (c : Completion)
    (this : Updates) :
  platform env = Windows ->
  status_ this = UpdateAvailable ->
  is_failure c = true ->
  let r := install_and_complete env c this in
  state_after r = with_status this DownloadFailed /\
  existsb (fun e => is_filesystem e || is_launch e || is_exit e) (trace_of r)
    = false.
Proof.
  intros Hp Hs Hc r. subst r. unfold install_and_complete, then_deliver, bind.
  rewrite (installUpdates_sends _ _ Hp Hs).
  unfold install_request, install_prefix, notification. rewrite Hs.
  destruct this; destruct c as [r | r |]; try discriminate;
    destruct (isPortable env); split; reflexivity.
Qed.

Lemma install_failure_DownloadFailed_witness :
  state_after (install_and_complete (desktop Windows true 0 true) TimedOut
                 found_update) = with_status found_update DownloadFailed.
Proof.
  apply (install_failure_DownloadFailed (desktop Windows true 0 true) TimedOut
           found_update); reflexivity.
Defined.

(** X2. On macOS and Linux [installUpdates] downloads nothing: it shows one
    modal dialog and opens one page, the installer address on macOS and the
    guide link on Linux; no request is sent and no member changes, the
    status included. *)
Theorem installUpdates_manual_platforms (env : Env) (this : Updates) :
  status_ this = UpdateAvailable ->
  platform env = MacOS \/ platform env = Linux ->
  exists text,
    installUpdates env this =
    (None, this,
     [MessageBox Exec text;
      OpenUrl (match platform env with
               | MacOS => updateExe_ this
               | _ => updateGuideLink_ this
               end)]).
Proof.
  intros Hs Hp. unfold installUpdates. run_monad. rewrite Hs.
  cbn [Status_eqb negb].
  destruct Hp as [-> | ->]; eexists; reflexivity.
Qed.

Lemma installUpdates_manual_platforms_witness :
  exists text,
    installUpdates (desktop Linux false 0 true) found_update =
    (None, found_update,
     [MessageBox Exec text; OpenUrl "https://chatterino.com"]).
Proof.
  apply (installUpdates_manual_platforms (desktop Linux false 0 true)
           found_update).
  - reflexivity.
  - right. reflexivity.
Defined.

(** X3. After a download whose write reported no error, the process exit is
    requested in the portable mode whether or not the updater could be
    started, and in the installer mode exactly when the installer could be
    started; the status stays [Downloading] in every case. *)
Theorem install_exit_requested (env : Env) (result : NetworkResult)
    (this : Updates) :
  platform env = Windows ->
  status_ this = UpdateAvailable ->
  write_reports_error env (getData result) = false ->
  let r := install_and_complete env (Succeeded result) this in
  existsb is_exit (trace_of r) =
    (isPortable env || launch_succeeds env (artifact_path env) []) /\
  state_after r = with_status this Downloading.
Proof.
  intros Hp Hs Hw r. subst r.
  rewrite (install_and_complete_success _ _ _ Hp Hs).
  unfold install_prefix, notification. rewrite Hs.
  destruct (isPortable env) eqn:Hportable.
  - rewrite (installPortable_onSuccess_run _ _ _ Hportable), Hw.
    split; reflexivity.
  - rewrite (installExe_onSuccess_run _ _ _ Hportable), Hw.
    destruct (launch_succeeds env (artifact_path env) []); split; reflexivity.
Qed.

Lemma install_exit_requested_witness :
  existsb is_exit
    (trace_of
       (install_and_complete (desktop Windows true 2 false)
          (Succeeded (mkResult "PK" [])) found_update)) = true.
Proof.
  apply (install_exit_requested (desktop Windows true 2 false)
           (mkResult "PK" []) found_update); reflexivity.
Defined.

(* ===================================================================== *)
(** ** What holds along every run *)
(* ===================================================================== *)

Lemma exits_follow_writes_app (written : bool) (t1 t2 : list Event) :
  exits_follow_writes written t1 = true ->
  (forall w, exits_follow_writes w t2 = true) ->
  exits_follow_writes written (t1 ++ t2) = true.
Proof.
  revert written. induction t1 as [| e t1 IH]; intros written H1 H2; simpl.
  - apply H2.
  - destruct e; simpl in H1 |- *; try (now apply IH).
    apply andb_true_iff in H1. destruct H1 as [-> H1]. simpl. now apply IH.
Qed.

Lemma replay_app (s s' : Status) (t1 t2 : list Event) :
  replay s t1 = Some s' -> replay s (t1 ++ t2) = replay s' t2.
Proof.
  revert s. induction t1 as [| e t1 IH]; intros s H; simpl in *.
  - now injection H as ->.
  - revert H. destruct e; try (intro H; now apply IH).
    match goal with
    | b : Event |- _ => destruct b; try (intro H; now apply IH)
    end.
    match goal with
    | |- context [Status_eqb s ?x] => destruct (Status_eqb s x)
    end; [discriminate | intro H; now apply IH].
Qed.

Lemma replay_notification (old new : Status) :
  replay old (notification old new) = Some new.
Proof.
  unfold notification. destruct (Status_eqb old new) eqn:E; simpl.
  - apply Status_eqb_eq in E. now subst.
  - now rewrite E.
Qed.

Lemma verdict_consistent_other (this : Updates) (s : Status) :
  s <> NoUpdateAvailable -> s <> UpdateAvailable ->
  verdict_consistent (with_status this s).
Proof. intros H1 H2. split; simpl; intro H; congruence. Qed.

Lemma notification_no_exit (old new : Status) (written : bool) :
  exits_follow_writes written (notification old new) = true.
Proof. unfold notification. now destruct (Status_eqb old new). Qed.

(** Traces of the shape the class produces: some events that are neither
    notifications nor exits nor writes around one notification. *)
Lemma replay_around (old new : Status) (t1 t2 : list Event) :
  replay old t1 = Some old -> replay new t2 = Some new ->
  replay old (t1 ++ notification old new ++ t2) = Some new.
Proof.
  intros H1 H2. rewrite (replay_app _ _ _ _ H1).
  now rewrite (replay_app _ _ _ _ (replay_notification old new)).
Qed.

(** Setting a status that is not a verdict of a check. *)
Lemma step_keeps_status (this : Updates) (s : Status) (t : list Event) :
  s <> NoUpdateAvailable -> s <> UpdateAvailable ->
  (forall written, exits_follow_writes written t = true) ->
  replay (status_ this) t = Some s ->
  step_keeps this (with_status this s) t.
Proof.
  intros H1 H2 Ht Hr.
  split; [intros _; now apply verdict_consistent_other |].
  split; [reflexivity |]. split; [reflexivity |]. now split.
Qed.

Lemma step_keeps_same (this : Updates) (t : list Event) :
  (forall written, exits_follow_writes written t = true) ->
  replay (status_ this) t = Some (status_ this) ->
  step_keeps this this t.
Proof.
  intros Ht Hr. split; [trivial |].
  split; [reflexivity |]. split; [reflexivity |]. now split.
Qed.

Lemma verdict_no_update (this : Updates) (exe portable : string) :
  verdict_consistent
    (with_status
       (with_onlineVersion (with_updatePortable (with_updateExe this exe) portable)
          ("v." ++ currentVersion_ this))
       NoUpdateAvailable).
Proof.
  split; cbn -[append isDowngradeOf]; intro H; [reflexivity | discriminate].
Qed.

Lemma verdict_update (this : Updates) (exe portable tag : string) :
  tag <> "v." ++ currentVersion_ this ->
  verdict_consistent
    (with_isDowngrade
       (with_status
          (with_onlineVersion
             (with_updatePortable (with_updateExe this exe) portable) tag)
          UpdateAvailable)
       (isDowngradeOf tag (currentVersion_ this))).
Proof.
  intro Hne. split; cbn -[append isDowngradeOf]; intro H;
    [discriminate | split; trivial].
Qed.

Lemma checkForUpdates_onSuccess_keeps (env : Env) (result : NetworkResult)
    (this : Updates) :
  let r := checkForUpdates_onSuccess env result this in
  step_keeps this (state_after r) (trace_of r).
Proof.
  cbv zeta. callback_cases env result; unfold state_after, trace_of.
  - cbv zeta.
    destruct (String.eqb_spec
                ("v." ++ currentVersion_ this)
                (toString (tag_name_of (parseJson result)))) as [E | E];
      cbn [fst snd].
    + rewrite <- E. split; [intros _; apply verdict_no_update |].
      split; [reflexivity |]. split; [reflexivity |].
      split; [intro w; apply notification_no_exit | apply replay_notification].
    + split; [intros _; apply verdict_update; congruence |].
      split; [reflexivity |]. split; [reflexivity |].
      split; [intro w; apply notification_no_exit | apply replay_notification].
  - cbn [fst snd]. split; [intros _; split; cbn; intro H; discriminate |].
    split; [reflexivity |]. split; [reflexivity |].
    split; [intro w; apply notification_no_exit | apply replay_notification].
  - cbn [fst snd]. apply step_keeps_status; try discriminate.
    + intro w. apply notification_no_exit.
    + apply replay_notification.
  - now apply step_keeps_same.
  - now apply step_keeps_same.
  - now apply step_keeps_same.
  - cbn [fst snd]. apply step_keeps_status; try discriminate.
    + intro w. apply notification_no_exit.
    + apply replay_notification.
Qed.

Lemma installPortable_onSuccess_keeps (env : Env) (result : NetworkResult)
    (this : Updates) :
  let r := installPortable_onSuccess env result this in
  step_keeps this (state_after r) (trace_of r).
Proof.
  cbv zeta. unfold installPortable_onSuccess. run_monad.
  destruct (_ =? _)%Z; run_monad.
  - rewrite setStatus__run. unfold state_after, trace_of; simpl.
    apply step_keeps_status; try discriminate.
    + intro w. rewrite app_nil_r. apply notification_no_exit.
    + rewrite app_nil_r. apply replay_notification.
  - unfold state_after, trace_of; simpl. now apply step_keeps_same.
Qed.

Lemma installExe_onSuccess_keeps (env : Env) (result : NetworkResult)
    (this : Updates) :
  let r := installExe_onSuccess env result this in
  step_keeps this (state_after r) (trace_of r).
Proof.
  cbv zeta. unfold installExe_onSuccess. run_monad.
  destruct (_ =? _)%Z; run_monad.
  - rewrite setStatus__run. unfold state_after, trace_of; simpl.
    apply step_keeps_status; try discriminate.
    + intro w. apply exits_follow_writes_app; [apply notification_no_exit |].
      reflexivity.
    + cbn [replay]. now rewrite (replay_app _ _ _ _ (replay_notification _ _)).
  - destruct (launch_succeeds env _ []); unfold state_after, trace_of; simpl;
      now apply step_keeps_same.
Qed.

Lemma install_onError_keeps (cb : NetworkResult -> M unit)
    (result : NetworkResult) (this : Updates) :
  cb = installPortable_onError \/ cb = installExe_onError ->
  let r := cb result this in
  step_keeps this (state_after r) (trace_of r).
Proof.
  intros [-> | ->]; cbv zeta;
    unfold installPortable_onError, installExe_onError; run_monad;
    rewrite setStatus__run; unfold state_after, trace_of; simpl;
    (apply step_keeps_status; try discriminate);
    [ intro w; apply exits_follow_writes_app;
      [apply notification_no_exit | reflexivity]
    | now rewrite (replay_app _ _ _ _ (replay_notification _ _))
    | intro w; apply exits_follow_writes_app;
      [apply notification_no_exit | reflexivity]
    | now rewrite (replay_app _ _ _ _ (replay_notification _ _)) ].
Qed.

(** The completion of a request of this class, on any members. *)
Lemma deliver_keeps (env : Env) (r : NetworkRequest) (c : Completion)
    (this : Updates) :
  registered_by_Updates env r ->
  let res := deliver r c this in
  step_keeps this (state_after res) (trace_of res).
Proof.
  intros Hr. cbv zeta. unfold deliver.
  assert (Hsucc : req_onSuccess r = Some (checkForUpdates_onSuccess env) \/
                  req_onSuccess r = Some (installPortable_onSuccess env) \/
                  req_onSuccess r = Some (installExe_onSuccess env))
    by (destruct Hr as [[H _] | [[H _] | [H _]]]; auto).
  assert (Herr : req_onError r = None \/
                 exists cb, req_onError r = Some cb /\
                            (cb = installPortable_onError \/
                             cb = installExe_onError)).
  { destruct Hr as [[_ H] | [[_ H] | [_ H]]]; [now left | right | right];
      eexists; split; eauto. }
  assert (Hfail : forall result,
             step_keeps this
               (state_after (match req_onError r with
                             | Some cb => cb result;; ret None
                             | None => ret (@None Outcome)
                             end this))
               (trace_of (match req_onError r with
                          | Some cb => cb result;; ret None
                          | None => ret (@None Outcome)
                          end this))).
  { intro result. destruct Herr as [-> | (cb & -> & Hcb)].
    - now apply step_keeps_same.
    - pose proof (install_onError_keeps cb result this Hcb) as H.
      cbv zeta in H. run_monad.
      destruct (cb result this) as [[u this'] t]. rewrite app_nil_r.
      exact H. }
  destruct c as [result | result |]; try apply Hfail.
  destruct Hsucc as [-> | [-> | ->]]; run_monad.
  - pose proof (checkForUpdates_onSuccess_keeps env result this) as H.
    cbv zeta in H.
    destruct (checkForUpdates_onSuccess env result this) as [[o this'] t].
    now rewrite app_nil_r.
  - pose proof (installPortable_onSuccess_keeps env result this) as H.
    cbv zeta in H.
    destruct (installPortable_onSuccess env result this) as [[o this'] t].
    now rewrite app_nil_r.
  - pose proof (installExe_onSuccess_keeps env result this) as H.
    cbv zeta in H.
    destruct (installExe_onSuccess env result this) as [[o this'] t].
    now rewrite app_nil_r.
Qed.

(** A call of [checkForUpdates], on any members. *)
Lemma checkForUpdates_keeps (env : Env) (this : Updates) :
  let r := checkForUpdates env this in
  step_keeps this (state_after r) (trace_of r) /\
  forall req, In req (sent_requests (value_of r)) ->
              registered_by_Updates env req.
Proof.
  cbv zeta. destruct (passes_guards env) eqn:Hg.
  - rewrite (checkForUpdates_sends _ _ Hg).
    unfold state_after, trace_of, value_of; simpl. split.
    + apply step_keeps_status; try discriminate.
      * intro w. apply notification_no_exit.
      * apply replay_notification.
    + intros req [<- | []]. left. split; reflexivity.
  - assert (E : checkForUpdates env this = (None, this, [])).
    { unfold checkForUpdates, passes_guards in *.
      destruct (isSupportedOS env), (isFlatpak env), (isNightly env);
        trivial; discriminate. }
    rewrite E. split; [now apply step_keeps_same | intros req []].
Qed.

(** A call of [installUpdates], on any members. *)
Lemma installUpdates_keeps (env : Env) (this : Updates) :
  let r := installUpdates env this in
  step_keeps this (state_after r) (trace_of r) /\
  forall req, In req (sent_requests (value_of r)) ->
              registered_by_Updates env req.
Proof.
  cbv zeta. unfold installUpdates. run_monad.
  destruct (Status_eqb (status_ this) UpdateAvailable) eqn:Hs;
    cbn [negb].
  - destruct (platform env).
    + destruct (isPortable env); run_monad; rewrite setStatus__run;
        unfold state_after, trace_of, value_of; simpl; (split;
        [ apply step_keeps_status; try discriminate;
          [ intro w; rewrite app_nil_r; apply notification_no_exit
          | rewrite app_nil_r; apply replay_notification ]
        | intros req [<- | []]; right;
          first [left; split; reflexivity | right; split; reflexivity] ]).
    + unfold state_after, trace_of, value_of; simpl.
      split; [now apply step_keeps_same | intros req []].
    + unfold state_after, trace_of, value_of; simpl.
      split; [now apply step_keeps_same | intros req []].
    + unfold state_after, trace_of, value_of; simpl.
      split; [now apply step_keeps_same | intros req []].
  - unfold state_after, trace_of, value_of; simpl.
    split; [now apply step_keeps_same | intros req []].
Qed.

Lemma Forall_remove_nth {A : Type} (P : A -> Prop) (n : nat) (l : list A) :
  Forall P l -> Forall P (remove_nth n l).
Proof.
  intro H. revert n. induction H as [| x l Hx Hl IH]; intros [| n]; simpl;
    auto.
Qed.

(** One action keeps everything that matters. *)
Lemma perform_keeps (env : Env) (a : Action) (s : System) :
  Forall (registered_by_Updates env) (pending s) ->
  let s' := perform env a s in
  Forall (registered_by_Updates env) (pending s') /\
  exists t,
    history s' = (history s ++ t)%list /\
    step_keeps (object s) (object s') t.
Proof.
  intros Hpending. cbv zeta. destruct a as [| | n c]; simpl.
  - pose proof (checkForUpdates_keeps env (object s)) as [Hk Hsent].
    cbv zeta in Hk, Hsent. unfold state_after, trace_of, value_of in *.
    destruct (checkForUpdates env (object s)) as [[sent this] t]; simpl in *.
    split; [| now exists t].
    apply Forall_app. split; trivial. now apply Forall_forall.
  - pose proof (installUpdates_keeps env (object s)) as [Hk Hsent].
    cbv zeta in Hk, Hsent. unfold state_after, trace_of, value_of in *.
    destruct (installUpdates env (object s)) as [[sent this] t]; simpl in *.
    split; [| now exists t].
    apply Forall_app. split; trivial. now apply Forall_forall.
  - destruct (nth_error (pending s) n) as [r |] eqn:Hn.
    + assert (Hr : registered_by_Updates env r).
      { apply nth_error_In in Hn. revert Hn. now apply Forall_forall. }
      pose proof (deliver_keeps env r c (object s) Hr) as Hk.
      cbv zeta in Hk. unfold state_after, trace_of in Hk.
      destruct (deliver r c (object s)) as [[o this] t]; simpl in *.
      split; [now apply Forall_remove_nth | now exists t].
    + split; [trivial |]. exists []. rewrite app_nil_r.
      split; [reflexivity | now apply step_keeps_same].
Qed.

Lemma run_keeps (env : Env) (actions : list Action) (s : System)
    (listener : Status) :
  Forall (registered_by_Updates env) (pending s) ->
  exits_follow_writes false (history s) = true ->
  replay listener (history s) = Some (status_ (object s)) ->
  verdict_consistent (object s) ->
  let s' := run env actions s in
  Forall (registered_by_Updates env) (pending s') /\
  exits_follow_writes false (history s') = true /\
  replay listener (history s') = Some (status_ (object s')) /\
  verdict_consistent (object s') /\
  currentVersion_ (object s') = currentVersion_ (object s) /\
  updateGuideLink_ (object s') = updateGuideLink_ (object s).
Proof.
  revert s. induction actions as [| a actions IH]; intros s Hp Hh Hl Hv.
  - cbv zeta. simpl. auto 10.
  - cbv zeta. simpl.
    destruct (perform_keeps env a s Hp)
      as (Hp' & t & Et & Hv' & Hc' & Hg' & Hx' & Hr').
    assert (Hh' : exits_follow_writes false (history (perform env a s)) = true)
      by (rewrite Et; now apply exits_follow_writes_app).
    assert (Hl' : replay listener (history (perform env a s)) =
                  Some (status_ (object (perform env a s))))
      by (rewrite Et; now rewrite (replay_app _ _ _ _ Hl)).
    destruct (IH (perform env a s) Hp' Hh' Hl' (Hv' Hv))
      as (H1 & H2 & H3 & H4 & H5 & H6).
    split; [exact H1 | split; [exact H2 | split; [exact H3 |]]].
    split; [exact H4 |]. split; congruence.
Qed.

Lemma boot_verdict_consistent (v : string) :
  verdict_consistent (object (boot v)).
Proof. split; simpl; intro H; discriminate. Qed.

Lemma run_from_boot (env : Env) (v : string) (actions : list Action) :
  let s' := run env actions (boot v) in
  exits_follow_writes false (history s') = true /\
  replay Idle (history s') = Some (status_ (object s')) /\
  verdict_consistent (object s') /\
  currentVersion_ (object s') = v /\
  updateGuideLink_ (object s') = "https://chatterino.com".
Proof.
  destruct (run_keeps env actions (boot v) Idle)
    as (_ & H2 & H3 & H4 & H5 & H6); trivial.
  - apply boot_verdict_consistent.
  - cbv zeta. auto.
Qed.

(** The reading of a trace by [exits_follow_writes] means what it says. *)
Lemma exits_follow_writes_sound (t before after : list Event) (code : Z) :
  exits_follow_writes false t = true ->
  t = (before ++ ApplicationExit code :: after)%list ->
  exists path data, In (FileWrite path data) before.
Proof.
  intros H ->.
  assert (G : forall written l,
             exits_follow_writes written
               (l ++ ApplicationExit code :: after) = true ->
             written = true \/ exists path data, In (FileWrite path data) l).
  { intros written l. revert written.
    induction l as [| e l IH]; intros written Hl; simpl in Hl.
    - apply andb_true_iff in Hl. now left.
    - destruct e;
        try (destruct (IH _ Hl) as [-> | (p & d & Hin)];
             [now left | right; exists p, d; now right]).
      + right. eexists _, _. left. reflexivity.
      + apply andb_true_iff in Hl. destruct Hl as [-> _]. now left. }
  destruct (G false before H) as [Hf | Hex]; [discriminate | exact Hex].
Qed.

(** X4. However calls of [checkForUpdates] and [installUpdates] and the
    completions of their requests follow each other: whenever the status is
    [NoUpdateAvailable] the online version is [v.] followed by the current
    version, and whenever it is [UpdateAvailable] the online version is
    something else and the downgrade flag is what [isDowngradeOf] answers
    for the online and the current version. *)
Theorem run_verdict_consistent (env : Env) (v : string) (actions : list Action) :
  verdict_consistent (object (run env actions (boot v))).
Proof. apply (run_from_boot env v actions). Qed.

(** X5. No sequence of calls and completions changes the version of the
    build or the update guide link. *)
Theorem run_keeps_version_and_guide (env : Env) (v : string)
    (actions : list Action) :
  currentVersion_ (object (run env actions (boot v))) = v /\
  updateGuideLink_ (object (run env actions (boot v))) =
    "https://chatterino.com".
Proof. split; apply (run_from_boot env v actions). Qed.

(** X6. In everything that happens along any sequence of calls and
    completions, each request of a process exit comes after a write of a
    downloaded artifact. *)
Theorem run_exits_follow_writes (env : Env) (v : string)
    (actions : list Action) (before after : list Event) (code : Z) :
  history (run env actions (boot v)) =
    (before ++ ApplicationExit code :: after)%list ->
  exists path data, In (FileWrite path data) before.
Proof.
  apply exits_follow_writes_sound. apply (run_from_boot env v actions).
Qed.

(** X7. Along any sequence of calls and completions the posted
    [statusUpdated] notifications tell the whole story: a listener that
    starts at [Idle] and follows them is never told the status it already
    has, and ends with the status the object holds. *)
Theorem run_notifications_track_status (env : Env) (v : string)
    (actions : list Action) :
  replay Idle (history (run env actions (boot v))) =
  Some (status_ (object (run env actions (boot v)))).
Proof. apply (run_from_boot env v actions). Qed.

Lemma run_exits_follow_writes_witness :
  exists path data,
    In (FileWrite path data)
      [Execute "https://chatterinohomies.com/api/latest-release"
         (Some 60000%Z);
       PostToThread (StatusUpdated Searching);
       PostToThread (StatusUpdated UpdateAvailable);
       MessageBox Show text_downloading;
       Execute "https://example.org/p.zip" (Some 600000%Z);
       PostToThread (StatusUpdated Downloading);
       FileOpen "C:/misc/update.zip";
       FileWrite "C:/misc/update.zip" "PK";
       FileFlush "C:/misc/update.zip";
       FileClose "C:/misc/update.zip";
       StartDetached "C:/app/updater.1/ChatterinoUpdater.exe"
         ["C:/misc/update.zip"; "restart"]].
Proof.
  apply (run_exits_follow_writes (desktop Windows true 2 true) "2.0.0"
           update_session _ [] 0%Z).
  reflexivity.
Defined.

(* ===================================================================== *)
(** ** More on the check and on the status helpers *)
(* ===================================================================== *)

(** X8. The update button is shown exactly for the error statuses and for
    [UpdateAvailable] and [Downloading]; in particular every error status
    shows it. *)
Theorem shouldShowUpdateButton_and_isError (this : Updates) :
  shouldShowUpdateButton this =
    (isError this
     || Status_eqb (getStatus this) UpdateAvailable
     || Status_eqb (getStatus this) Downloading) /\
  (isError this = true <->
   getStatus this = SearchFailed \/ getStatus this = DownloadFailed \/
   getStatus this = WriteFileFailed).
Proof.
  unfold shouldShowUpdateButton, isError.
  destruct (getStatus this); simpl; split; trivial; split;
    intuition congruence.
Qed.

(** X9. On Windows every response to the release query, whatever it holds,
    ends the check in [UpdateAvailable], [NoUpdateAvailable] or
    [SearchFailed]. *)
Theorem check_response_on_windows_is_final (env : Env) (result : NetworkResult)
    (this : Updates) :
  passes_guards env = true ->
  platform env = Windows ->
  let s := status_ (state_after
                      (check_and_complete env (Succeeded result) this)) in
  s = UpdateAvailable \/ s = NoUpdateAvailable \/ s = SearchFailed.
Proof. apply check_success_on_windows_final. Qed.

Lemma check_response_on_windows_is_final_witness :
  let s := status_ (state_after
                      (check_and_complete (desktop Windows false 0 true)
                         (Succeeded (body_of [])) (Updates_new "2.0.0"))) in
  s = UpdateAvailable \/ s = NoUpdateAvailable \/ s = SearchFailed.
Proof.
  apply (check_response_on_windows_is_final (desktop Windows false 0 true)
           (body_of []) (Updates_new "2.0.0")); reflexivity.
Defined.

(** X10. A response on Windows with a tag and an installer address but no
    portable address is rejected with [SearchFailed] after the installer
    address has been stored: [updateExe_] is overwritten, while the portable
    address, the online version and the downgrade flag keep their values.
    A response without an installer address stores nothing. *)
Theorem check_rejected_response_stores (env : Env) (result : NetworkResult)
    (this : Updates) :
  passes_guards env = true ->
  platform env = Windows ->
  isString (tag_name_of (parseJson result)) = true ->
  let after := state_after (check_and_complete env (Succeeded result) this) in
  (isString (installer_url_of (parseJson result)) = false ->
   after = with_status this SearchFailed) /\
  (isString (installer_url_of (parseJson result)) = true ->
   isString (portable_url_of (parseJson result)) = false ->
   after =
     with_status
       (with_updateExe this (toString (installer_url_of (parseJson result))))
       SearchFailed).
Proof.
  intros Hg Hp Htag after. subst after.
  rewrite (check_and_complete_success _ _ _ Hg). split.
  - intro Hexe. rewrite (onSuccess_no_installer _ _ _ Hp Htag Hexe).
    now destruct this.
  - intros Hexe Hportable.
    rewrite (onSuccess_no_portable _ _ _ Hp Htag Hexe Hportable).
    now destruct this.
Qed.

Lemma check_rejected_response_stores_witness :
  updateExe_
    (state_after
       (check_and_complete (desktop Windows false 0 true)
          (Succeeded
             (body_of
                [("tag_name", JString "v.2.1.0");
                 ("download",
                  JObject
                    [("installer",
                      JObject [("url", JString "https://example.org/n.exe")])])]))
          found_update)) = "https://example.org/n.exe".
Proof.
  destruct (check_rejected_response_stores (desktop Windows false 0 true)
              (body_of
                 [("tag_name", JString "v.2.1.0");
                  ("download",
                   JObject
                     [("installer",
                       JObject [("url", JString "https://example.org/n.exe")])])])
              found_update eq_refl eq_refl eq_refl) as (_ & H).
  cbv zeta in H. rewrite (H eq_refl eq_refl). reflexivity.
Defined.

(** X11. [isDowngradeOf] never answers true in both directions. *)
Theorem isDowngradeOf_one_direction (a b : string) :
  isDowngradeOf a b = true -> isDowngradeOf b a = false.
Proof. apply isDowngradeOf_asymmetric. Qed.

Lemma isDowngradeOf_one_direction_witness :
  isDowngradeOf "2.0.0" "2.0.0-rc.1" = false.
Proof.
  apply (isDowngradeOf_one_direction "2.0.0-rc.1" "2.0.0"). reflexivity.
Defined.

(* ===================================================================== *)
(** ** 7TV badges *)
(* ===================================================================== *)

Module seventv_facts.
Import seventv.

Section BadgeFacts.

Variable ImageSet : Type.
Variable ImageSet_of_urls : string -> string -> string -> ImageSet.
Variable createImageSet : QJsonObject -> ImageSet.
Variable image1_isEmpty : ImageSet -> bool.

(** *** The maps *)

Lemma find_add_same (A : Type) (k : string) (x : A) (m : StringMap.t A) :
  StringMap.find k (StringMap.add k x m) = Some x.
Proof. now apply StringMapFacts.add_eq_o. Qed.

Lemma find_add_other (A : Type) (k k' : string) (x : A) (m : StringMap.t A) :
  k' <> k -> StringMap.find k' (StringMap.add k x m) = StringMap.find k' m.
Proof. intro H. apply StringMapFacts.add_neq_o. congruence. Qed.

Lemma find_remove_same (A : Type) (k : string) (m : StringMap.t A) :
  StringMap.find k (StringMap.remove k m) = None.
Proof. now apply StringMapFacts.remove_eq_o. Qed.

Lemma find_remove_other (A : Type) (k k' : string) (m : StringMap.t A) :
  k' <> k -> StringMap.find k' (StringMap.remove k m) = StringMap.find k' m.
Proof. intro H. apply StringMapFacts.remove_neq_o. congruence. Qed.

Lemma mem_true_find (A : Type) (k : string) (m : StringMap.t A) :
  StringMap.mem k m = true <-> exists x, StringMap.find k m = Some x.
Proof.
  rewrite StringMapFacts.mem_find_b.
  destruct (StringMap.find k m) as [x |]; split.
  - now exists x.
  - trivial.
  - discriminate.
  - intros [x H]. discriminate.
Qed.

Lemma mem_false_find (A : Type) (k : string) (m : StringMap.t A) :
  StringMap.mem k m = false <-> StringMap.find k m = None.
Proof.
  rewrite StringMapFacts.mem_find_b.
  destruct (StringMap.find k m); split; congruence.
Qed.

Lemma mem_add_grows (A : Type) (k k' : string) (x : A) (m : StringMap.t A) :
  StringMap.mem k' m = true -> StringMap.mem k' (StringMap.add k x m) = true.
Proof.
  rewrite !mem_true_find. intros [y H].
  destruct (string_dec k' k) as [-> | Hne].
  - exists x. apply find_add_same.
  - exists y. now rewrite find_add_other.
Qed.

(** *** [assignBadgeToUser], [clearBadgeFromUser], [getBadge] *)

(** X12. Assigning a known badge makes it the badge of that user;
    assigning a badge id that is not known changes nothing; the badges of
    all other users and the known badges stay as they are. *)
Theorem assignBadgeToUser_getBadge (badgeID userID : string) (this : SeventvBadges ImageSet) :
  (forall badge,
     StringMap.find badgeID (knownBadges_ this) = Some badge ->
     getBadge (assignBadgeToUser badgeID userID this) userID = Some badge) /\
  (StringMap.find badgeID (knownBadges_ this) = None ->
   assignBadgeToUser badgeID userID this = this) /\
  (forall other,
     other <> userID ->
     getBadge (assignBadgeToUser badgeID userID this) other =
     getBadge this other) /\
  knownBadges_ (assignBadgeToUser badgeID userID this) = knownBadges_ this.
Proof.
  unfold assignBadgeToUser, getBadge.
  destruct (StringMap.find badgeID (knownBadges_ this)) as [b |]; simpl.
  - split; [intros badge [= <-]; apply find_add_same |].
    split; [discriminate |].
    split; [intros other H; now apply find_add_other | reflexivity].
  - split; [discriminate |]. repeat split.
Qed.

(** X13. Clearing a badge from a user removes the user's badge exactly
    when the user wears a badge with that id; when the user wears another
    badge or none, the object is unchanged; other users and the known
    badges are never affected. *)
Theorem clearBadgeFromUser_getBadge (badgeID userID : string) (this : SeventvBadges ImageSet) :
  (forall badge,
     getBadge this userID = Some badge -> id badge = badgeID ->
     getBadge (clearBadgeFromUser badgeID userID this) userID = None) /\
  (forall badge,
     getBadge this userID = Some badge -> id badge <> badgeID ->
     clearBadgeFromUser badgeID userID this = this) /\
  (getBadge this userID = None ->
   clearBadgeFromUser badgeID userID this = this) /\
  (forall other,
     other <> userID ->
     getBadge (clearBadgeFromUser badgeID userID this) other =
     getBadge this other) /\
  knownBadges_ (clearBadgeFromUser badgeID userID this) = knownBadges_ this.
Proof.
  unfold clearBadgeFromUser, getBadge.
  destruct (StringMap.find userID (badgeMap_ this)) as [b |].
  - destruct (String.eqb_spec (id b) badgeID) as [E | E]; simpl.
    + split; [intros; apply find_remove_same |].
      split; [intros badge [= <-] H; now elim H |].
      split; [discriminate |].
      split; [intros other H; now apply find_remove_other | reflexivity].
    + split; [intros badge [= <-] H; now elim E |].
      repeat split.
  - split; [discriminate |]. split; [discriminate |]. repeat split.
Qed.

(** *** [addBadge] *)

(** X14. [addBadge] never touches the badges users wear and never replaces
    a badge that is already known: for an id that is known, and for a
    badge whose first image is empty, the object is unchanged.  Otherwise
    the badge becomes known under its id, with the tooltip of the
    description, and every other known badge stays. *)
Theorem addBadge_known (badgeJson : QJsonObject) (this : SeventvBadges ImageSet) :
  let badgeID := toString (value badgeJson "id") in
  badgeMap_ (addBadge createImageSet image1_isEmpty badgeJson this) = badgeMap_ this /\
  (StringMap.mem badgeID (knownBadges_ this) = true ->
   addBadge createImageSet image1_isEmpty badgeJson this = this) /\
  (image1_isEmpty (createImageSet badgeJson) = true ->
   addBadge createImageSet image1_isEmpty badgeJson this = this) /\
  (StringMap.mem badgeID (knownBadges_ this) = false ->
   image1_isEmpty (createImageSet badgeJson) = false ->
   StringMap.find badgeID (knownBadges_ (addBadge createImageSet image1_isEmpty badgeJson this)) =
   Some (mkEmote "" (createImageSet badgeJson)
           (toString (value badgeJson "tooltip")) "" badgeID)) /\
  (forall key,
     StringMap.mem key (knownBadges_ this) = true ->
     StringMap.find key (knownBadges_ (addBadge createImageSet image1_isEmpty badgeJson this)) =
     StringMap.find key (knownBadges_ this)).
Proof.
  cbv zeta. unfold addBadge.
  destruct (StringMap.mem (toString (value badgeJson "id"))
              (knownBadges_ this)) eqn:Hmem.
  - split; [reflexivity |]. split; [auto |]. split; [auto |].
    split; [discriminate | auto].
  - cbn [images].
    destruct (image1_isEmpty (createImageSet badgeJson)) eqn:Himg.
    + split; [reflexivity |]. split; [discriminate |]. split; [auto |].
      split; [intros _ H; discriminate | auto].
    + cbn [badgeMap_ knownBadges_].
      split; [reflexivity |]. split; [discriminate |].
      split; [discriminate |].
      split; [intros _ _; apply find_add_same |].
      intros key Hkey. apply find_add_other. congruence.
Qed.

Lemma addBadge_of_known (badgeJson : QJsonObject)
    (this : SeventvBadges ImageSet) :
  StringMap.mem (toString (value badgeJson "id")) (knownBadges_ this) = true ->
  addBadge createImageSet image1_isEmpty badgeJson this = this.
Proof. intro H. unfold addBadge. now rewrite H. Qed.

Lemma addBadge_of_bad_image (badgeJson : QJsonObject)
    (this : SeventvBadges ImageSet) :
  image1_isEmpty (createImageSet badgeJson) = true ->
  addBadge createImageSet image1_isEmpty badgeJson this = this.
Proof.
  intro H. unfold addBadge. cbn [images]. rewrite H.
  now destruct (StringMap.mem _ _).
Qed.

(** X15. Adding the same badge description twice is the same as adding it
    once. *)
Theorem addBadge_twice (badgeJson : QJsonObject)
    (this : SeventvBadges ImageSet) :
  addBadge createImageSet image1_isEmpty badgeJson
    (addBadge createImageSet image1_isEmpty badgeJson this) =
  addBadge createImageSet image1_isEmpty badgeJson this.
Proof.
  destruct (StringMap.mem (toString (value badgeJson "id"))
              (knownBadges_ this)) eqn:Hmem.
  - rewrite (addBadge_of_known _ _ Hmem). now apply addBadge_of_known.
  - destruct (image1_isEmpty (createImageSet badgeJson)) eqn:Himg.
    + now rewrite !(addBadge_of_bad_image _ _ Himg).
    + apply addBadge_of_known. unfold addBadge. rewrite Hmem.
      cbn [images]. rewrite Himg. cbn [knownBadges_].
      apply mem_true_find. eexists. apply find_add_same.
Qed.

(** *** The feed *)

Lemma feed_emote_id (badge : QJsonObject) (emote : Emote ImageSet) :
  feed_emote ImageSet_of_urls badge = Some emote ->
  id emote = toString (value badge "id").
Proof.
  unfold feed_emote.
  destruct (badge_url (toArray (value badge "urls")) 0),
    (badge_url (toArray (value badge "urls")) 1),
    (badge_url (toArray (value badge "urls")) 2);
    try discriminate.
  now intros [= <-].
Qed.

Lemma assign_users_find (users : list QJsonValue) (emote : Emote ImageSet)
    (m : StringMap.t (Emote ImageSet)) (userID : string) :
  StringMap.find userID (assign_users users emote m) =
  if existsb (fun user => toString user =? userID) users
  then Some emote
  else StringMap.find userID m.
Proof.
  unfold assign_users. revert m.
  induction users as [| user users IH]; intro m; simpl; trivial.
  rewrite IH. destruct (String.eqb_spec (toString user) userID) as [-> | Hne].
  - simpl. rewrite find_add_same. now destruct (existsb _ users).
  - simpl. now rewrite find_add_other by congruence.
Qed.

(** What one entry of the feed does to the two lookups. *)
Lemma load_badge_lookups (this this' : SeventvBadges ImageSet)
    (jsonBadge : QJsonValue) :
  load_badge ImageSet_of_urls this jsonBadge = Some this' ->
  (forall userID,
     getBadge this' userID =
     if lists_user jsonBadge userID
     then feed_emote ImageSet_of_urls (toObject jsonBadge)
     else getBadge this userID) /\
  (forall badgeID,
     StringMap.find badgeID (knownBadges_ this') =
     if has_id jsonBadge badgeID
     then feed_emote ImageSet_of_urls (toObject jsonBadge)
     else StringMap.find badgeID (knownBadges_ this)).
Proof.
  unfold load_badge.
  destruct (feed_emote ImageSet_of_urls (toObject jsonBadge)) as [emote |] eqn:E;
    [| discriminate].
  intros [= <-]. split.
  - intro userID. unfold getBadge, lists_user. cbn [badgeMap_].
    apply assign_users_find.
  - intro badgeID. unfold has_id. cbn [knownBadges_].
    rewrite (feed_emote_id _ _ E).
    destruct (String.eqb_spec (toString (value (toObject jsonBadge) "id"))
                badgeID) as [-> | Hne].
    + apply find_add_same.
    + apply find_add_other. congruence.
Qed.

Lemma load_badges_app (pre post : list QJsonValue)
    (this this' : SeventvBadges ImageSet) :
  load_badges ImageSet_of_urls (pre ++ post) this = Some this' ->
  exists middle,
    load_badges ImageSet_of_urls pre this = Some middle /\
    load_badges ImageSet_of_urls post middle = Some this'.
Proof.
  revert this. induction pre as [| b pre IH]; intros this H; simpl in *.
  - now exists this.
  - destruct (load_badge ImageSet_of_urls this b) as [this1 |];
      [| discriminate].
    now apply IH.
Qed.

(** The last entry of the feed that says something about a lookup decides
    it; a lookup no entry speaks about keeps its answer. *)
Lemma load_badges_last_wins
    (look : SeventvBadges ImageSet -> option (Emote ImageSet))
    (speaks : QJsonValue -> bool) :
  (forall this b this',
     load_badge ImageSet_of_urls this b = Some this' ->
     look this' =
     if speaks b then feed_emote ImageSet_of_urls (toObject b) else look this) ->
  forall badges this this',
    load_badges ImageSet_of_urls badges this = Some this' ->
    (existsb speaks badges = false -> look this' = look this) /\
    (forall pre b post,
       badges = (pre ++ b :: post)%list ->
       speaks b = true -> existsb speaks post = false ->
       look this' = feed_emote ImageSet_of_urls (toObject b)).
Proof.
  intros Hstep.
  assert (Hquiet : forall badges this this',
             load_badges ImageSet_of_urls badges this = Some this' ->
             existsb speaks badges = false -> look this' = look this).
  { induction badges as [| b badges IH]; intros this this' H Hq; simpl in *.
    - now injection H as ->.
    - apply orb_false_iff in Hq. destruct Hq as [Hb Hq].
      destruct (load_badge ImageSet_of_urls this b) as [this1 |] eqn:E;
        [| discriminate].
      rewrite (IH _ _ H Hq), (Hstep _ _ _ E). now rewrite Hb. }
  intros badges this this' H. split; [now apply Hquiet |].
  intros pre b post -> Hb Hpost.
  apply load_badges_app in H. destruct H as (middle & _ & H).
  simpl in H.
  destruct (load_badge ImageSet_of_urls middle b) as [this1 |] eqn:E;
    [| discriminate].
  rewrite (Hquiet _ _ _ H Hpost), (Hstep _ _ _ E). now rewrite Hb.
Qed.

(** X17. After the feed has been loaded, a user who is listed by some entry
    wears the badge of the last entry that lists the user, whatever the user
    wore before; a user no entry lists keeps the badge, or the lack of one,
    from before. *)
Theorem load_badges_users (badges : list QJsonValue)
    (this this' : SeventvBadges ImageSet) (userID : string) :
  load_badges ImageSet_of_urls badges this = Some this' ->
  (existsb (fun b => lists_user b userID) badges = false ->
   getBadge this' userID = getBadge this userID) /\
  (forall pre b post,
     badges = (pre ++ b :: post)%list ->
     lists_user b userID = true ->
     existsb (fun b' => lists_user b' userID) post = false ->
     getBadge this' userID = feed_emote ImageSet_of_urls (toObject b)).
Proof.
  apply (load_badges_last_wins (fun s => getBadge s userID)
           (fun b => lists_user b userID)).
  intros s b s' H. now apply load_badge_lookups.
Qed.

(** X18. The feed replaces known badges: after it has been loaded, the badge
    known under an id is the one of the last entry with that id, even when
    the id was known before ([addBadge] keeps the old one); ids the feed
    does not mention keep their badges. *)
Theorem load_badges_known (badges : list QJsonValue)
    (this this' : SeventvBadges ImageSet) (badgeID : string) :
  load_badges ImageSet_of_urls badges this = Some this' ->
  (existsb (fun b => has_id b badgeID) badges = false ->
   StringMap.find badgeID (knownBadges_ this') =
   StringMap.find badgeID (knownBadges_ this)) /\
  (forall pre b post,
     badges = (pre ++ b :: post)%list ->
     has_id b badgeID = true ->
     existsb (fun b' => has_id b' badgeID) post = false ->
     StringMap.find badgeID (knownBadges_ this') =
     feed_emote ImageSet_of_urls (toObject b)).
Proof.
  apply (load_badges_last_wins
           (fun s => StringMap.find badgeID (knownBadges_ s))
           (fun b => has_id b badgeID)).
  intros s b s' H. now apply load_badge_lookups.
Qed.

(** *** What every sequence of operations keeps *)

Lemma addBadge_keeps (badgeJson : QJsonObject) (this : SeventvBadges ImageSet) :
  filed_by_id this /\ worn_are_known this ->
  filed_by_id (addBadge createImageSet image1_isEmpty badgeJson this) /\
  worn_are_known (addBadge createImageSet image1_isEmpty badgeJson this).
Proof.
  intros [Hf Hw]. unfold addBadge.
  destruct (StringMap.mem _ (knownBadges_ this)); [now split |].
  cbn [images]. destruct (image1_isEmpty _); [now split |]. split.
  - intros key badge. cbn [knownBadges_].
    destruct (string_dec key (toString (value badgeJson "id"))) as [-> | Hne].
    + rewrite find_add_same. now intros [= <-].
    + rewrite find_add_other by trivial. apply Hf.
  - intros userID badge H. cbn [badgeMap_ knownBadges_] in *.
    apply mem_add_grows. now apply (Hw userID).
Qed.

Lemma assignBadgeToUser_keeps (badgeID userID : string)
    (this : SeventvBadges ImageSet) :
  filed_by_id this /\ worn_are_known this ->
  filed_by_id (assignBadgeToUser badgeID userID this) /\
  worn_are_known (assignBadgeToUser badgeID userID this).
Proof.
  intros [Hf Hw]. unfold assignBadgeToUser.
  destruct (StringMap.find badgeID (knownBadges_ this)) as [b |] eqn:E;
    [| now split].
  split; [exact Hf |].
  intros u badge. cbn [badgeMap_ knownBadges_].
  destruct (string_dec u userID) as [-> | Hne].
  - rewrite find_add_same. intros [= <-].
    rewrite (Hf _ _ E). apply mem_true_find. now exists b.
  - rewrite find_add_other by trivial. apply Hw.
Qed.

Lemma clearBadgeFromUser_keeps (badgeID userID : string)
    (this : SeventvBadges ImageSet) :
  filed_by_id this /\ worn_are_known this ->
  filed_by_id (clearBadgeFromUser badgeID userID this) /\
  worn_are_known (clearBadgeFromUser badgeID userID this).
Proof.
  intros [Hf Hw]. unfold clearBadgeFromUser.
  destruct (StringMap.find userID (badgeMap_ this)) as [b |]; [| now split].
  destruct (id b =? badgeID); [| now split].
  split; [exact Hf |].
  intros u badge. cbn [badgeMap_ knownBadges_].
  destruct (string_dec u userID) as [-> | Hne].
  - now rewrite find_remove_same.
  - rewrite find_remove_other by trivial. apply Hw.
Qed.

Lemma load_badge_keeps (this this' : SeventvBadges ImageSet)
    (jsonBadge : QJsonValue) :
  load_badge ImageSet_of_urls this jsonBadge = Some this' ->
  filed_by_id this /\ worn_are_known this ->
  filed_by_id this' /\ worn_are_known this'.
Proof.
  intros H [Hf Hw].
  destruct (load_badge_lookups _ _ _ H) as [Husers Hknown].
  assert (Hid : forall emote,
             feed_emote ImageSet_of_urls (toObject jsonBadge) = Some emote ->
             has_id jsonBadge (id emote) = true).
  { intros emote E. unfold has_id. rewrite (feed_emote_id _ _ E).
    apply String.eqb_refl. }
  split.
  - intros key badge. rewrite Hknown. unfold has_id.
    destruct (String.eqb_spec (toString (value (toObject jsonBadge) "id")) key)
      as [<- | Hne].
    + apply feed_emote_id.
    + apply Hf.
  - intros userID badge. unfold getBadge in Husers. rewrite Husers.
    destruct (lists_user jsonBadge userID).
    + intro E. apply mem_true_find. rewrite Hknown, (Hid _ E). now exists badge.
    + intro E. apply mem_true_find. rewrite Hknown.
      destruct (has_id jsonBadge (id badge)) eqn:Hb.
      * unfold load_badge in H.
        destruct (feed_emote ImageSet_of_urls (toObject jsonBadge)) as [e |];
          [now exists e | discriminate].
      * apply mem_true_find. now apply (Hw userID).
Qed.

Lemma load_badges_keeps (badges : list QJsonValue)
    (this this' : SeventvBadges ImageSet) :
  load_badges ImageSet_of_urls badges this = Some this' ->
  filed_by_id this /\ worn_are_known this ->
  filed_by_id this' /\ worn_are_known this'.
Proof.
  revert this. induction badges as [| b badges IH]; intros this H Hinv;
    simpl in H.
  - now injection H as <-.
  - destruct (load_badge ImageSet_of_urls this b) as [this1 |] eqn:E;
      [| discriminate].
    apply (IH _ H). now apply (load_badge_keeps _ _ _ E).
Qed.

Lemma new_badges_filed :
  filed_by_id (SeventvBadges_new ImageSet) /\
  worn_are_known (SeventvBadges_new ImageSet).
Proof.
  split; intros k b; unfold SeventvBadges_new; cbn [badgeMap_ knownBadges_];
    rewrite StringMapFacts.empty_o; discriminate.
Qed.

Lemma apply_operations_keeps (ops : list Operation)
    (start this : SeventvBadges ImageSet) :
  apply_operations ImageSet_of_urls createImageSet image1_isEmpty ops start =
    Some this ->
  filed_by_id start /\ worn_are_known start ->
  filed_by_id this /\ worn_are_known this.
Proof.
  revert start. induction ops as [| op ops IH]; intros start H Hinv;
    simpl in H.
  - now injection H as <-.
  - destruct (apply_operation ImageSet_of_urls createImageSet image1_isEmpty
                op start) as [next |] eqn:E; [| discriminate].
    apply (IH next); trivial.
    destruct op as [badgeJson | badgeID userID | badgeID userID | result];
      simpl in E.
    + injection E as <-. now apply addBadge_keeps.
    + injection E as <-. now apply assignBadgeToUser_keeps.
    + injection E as <-. now apply clearBadgeFromUser_keeps.
    + unfold loadSeventvBadges_onSuccess in E.
      destruct (load_badges ImageSet_of_urls
                  (toArray (value (parseJson result) "badges")) start)
        as [loaded |] eqn:El; [| discriminate].
      injection E as <-. now apply (load_badges_keeps _ _ _ El).
Qed.

(** X19. Whatever is done to the object, starting from the empty one, in
    whatever order: every known badge is filed under its own id, and every
    badge a user wears has the id of a known badge. *)
Theorem operations_keep_badges_filed (ops : list Operation)
    (this : SeventvBadges ImageSet) :
  apply_operations ImageSet_of_urls createImageSet image1_isEmpty ops
    (SeventvBadges_new ImageSet) = Some this ->
  filed_by_id this /\ worn_are_known this.
Proof.
  intro H. apply (apply_operations_keeps _ _ _ H). apply new_badges_filed.
Qed.

(** X20. On any object reached from the empty one, assigning a known badge
    to a user and then clearing that badge id from the user leaves the user
    without a badge, also when the user wore another badge before. *)
Theorem assign_then_clear (ops : list Operation)
    (this : SeventvBadges ImageSet) (badgeID userID : string) :
  apply_operations ImageSet_of_urls createImageSet image1_isEmpty ops
    (SeventvBadges_new ImageSet) = Some this ->
  StringMap.mem badgeID (knownBadges_ this) = true ->
  getBadge
    (clearBadgeFromUser badgeID userID (assignBadgeToUser badgeID userID this))
    userID = None.
Proof.
  intros Hreach Hknown.
  destruct (apply_operations_keeps _ _ _ Hreach new_badges_filed) as [Hinv _].
  apply mem_true_find in Hknown. destruct Hknown as [badge Hbadge].
  unfold assignBadgeToUser. rewrite Hbadge.
  unfold clearBadgeFromUser, getBadge. cbn [badgeMap_ knownBadges_].
  rewrite find_add_same, (Hinv _ _ Hbadge), String.eqb_refl.
  cbn [badgeMap_]. apply find_remove_same.
Qed.

End BadgeFacts.

(** *** The statements above on a feed with two badges *)

Lemma assignBadgeToUser_getBadge_witness :
  getBadge (assignBadgeToUser "sub" "carol" after_two_badges) "carol" =
    Some (badge_of_entry "sub") /\
  assignBadgeToUser "vip" "carol" after_two_badges = after_two_badges.
Proof.
  destruct (assignBadgeToUser_getBadge three_urls "sub" "carol" after_two_badges)
    as (Hknown & _).
  destruct (assignBadgeToUser_getBadge three_urls "vip" "carol" after_two_badges)
    as (_ & Hunknown & _).
  split; [apply Hknown | apply Hunknown]; reflexivity.
Defined.

Lemma clearBadgeFromUser_getBadge_witness :
  getBadge (clearBadgeFromUser "mod" "bob" after_two_badges) "bob" = None /\
  clearBadgeFromUser "sub" "bob" after_two_badges = after_two_badges.
Proof.
  destruct (clearBadgeFromUser_getBadge three_urls "mod" "bob" after_two_badges)
    as (Hworn & _).
  destruct (clearBadgeFromUser_getBadge three_urls "sub" "bob" after_two_badges)
    as (_ & Hother & _).
  split.
  - apply (Hworn (badge_of_entry "mod")); reflexivity.
  - apply (Hother (badge_of_entry "mod")); [reflexivity | discriminate].
Defined.

Lemma addBadge_known_witness :
  addBadge three_urls_of_json first_is_empty
    [("id", JString "sub"); ("tooltip", JString "Other")] after_two_badges =
  after_two_badges.
Proof.
  destruct (addBadge_known three_urls three_urls_of_json first_is_empty
              [("id", JString "sub"); ("tooltip", JString "Other")]
              after_two_badges) as (_ & Hknown & _).
  apply Hknown. reflexivity.
Defined.

Lemma load_badges_users_witness :
  getBadge after_two_badges "bob" = Some (badge_of_entry "mod") /\
  getBadge after_two_badges "carol" = None.
Proof.
  destruct (load_badges_users three_urls three_urls_of two_badges
              (SeventvBadges_new three_urls) after_two_badges "bob" eq_refl)
    as (_ & Hlast).
  destruct (load_badges_users three_urls three_urls_of two_badges
              (SeventvBadges_new three_urls) after_two_badges "carol" eq_refl)
    as (Hnone & _).
  split.
  - apply (Hlast [feed_entry "sub" ["alice"; "bob"]]
             (feed_entry "mod" ["bob"]) []); reflexivity.
  - rewrite Hnone; reflexivity.
Defined.

Lemma load_badges_known_witness :
  StringMap.find "sub" (knownBadges_ after_two_badges) =
  Some (badge_of_entry "sub").
Proof.
  destruct (load_badges_known three_urls three_urls_of two_badges
              (SeventvBadges_new three_urls) after_two_badges "sub" eq_refl)
    as (_ & Hlast).
  apply (Hlast [] (feed_entry "sub" ["alice"; "bob"])
           [feed_entry "mod" ["bob"]]); reflexivity.
Defined.

Lemma operations_keep_badges_filed_witness :
  filed_by_id after_two_badges /\ worn_are_known after_two_badges.
Proof.
  apply (operations_keep_badges_filed three_urls three_urls_of three_urls_of_json
           first_is_empty
           [FeedArrives (feed two_badges)] after_two_badges).
  reflexivity.
Defined.

Lemma assign_then_clear_witness :
  getBadge
    (clearBadgeFromUser "sub" "bob"
       (assignBadgeToUser "sub" "bob" after_two_badges)) "bob" = None.
Proof.
  apply (assign_then_clear three_urls three_urls_of three_urls_of_json first_is_empty
           [FeedArrives (feed two_badges)] after_two_badges "sub" "bob");
    reflexivity.
Defined.

End seventv_facts.

(* ===================================================================== *)
(** ** Calling [installUpdates] again *)
(* ===================================================================== *)

(** X21. On Windows a second call of [installUpdates] right after the first
    does not start a second download: the first call has moved the status
    to [Downloading], so the second one hits the assertion, sends nothing
    and changes nothing. *)
Theorem installUpdates_twice (env : Env) (this : Updates) :
  platform env = Windows ->
  status_ this = UpdateAvailable ->
  let first := installUpdates env this in
  installUpdates env (state_after first) =
  (None, state_after first, [AssertFailed]).
Proof.
  intros Hp Hs first. subst first.
  rewrite (installUpdates_sends _ _ Hp Hs). unfold state_after. cbn [fst snd].
  unfold installUpdates. run_monad. reflexivity.
Qed.

Lemma installUpdates_twice_witness :
  installUpdates (desktop Windows true 2 true)
    (state_after (installUpdates (desktop Windows true 2 true) found_update)) =
  (None, with_status found_update Downloading, [AssertFailed]).
Proof.
  apply (installUpdates_twice (desktop Windows true 2 true) found_update);
    reflexivity.
Defined.
